(** * Pulsar: the AWG orchestration layer of PycQED

    A shallow embedding of [pycqed/measurement/waveform_control/pulsar.py]:
    the name sanitiser [simplify_name], the start/stop sequencing of the
    [Pulsar] meta-instrument, the AWG5014 programming paths
    ([AWG5014Pulsar._program_awg] and [AWG5014Pulsar._program_awg_old]) and
    [Pulsar.program_awgs].

    Python objects that live outside the module (the instrument drivers, the
    [Sequence] and [Segment] classes, the clock) are represented by the data
    they expose to [pulsar.py]; every call on an instrument driver that is
    not a plain read is recorded in a trace of events, together with the
    records handed to the logger. *)

From Stdlib Require Import ZArith NArith Lia Ascii String List.
From stdpp Require Import base gmap strings list sorting pretty.

Local Open Scope string_scope.
Local Open Scope list_scope.
Local Open Scope stdpp_scope.

(** ** Strings *)

(** [str.isalnum] on the characters that occur in waveform names (ASCII). *)
Definition isalnum (c : ascii) : bool :=
  let n := nat_of_ascii c in
  (Nat.leb 48 n && Nat.leb n 57) ||
  (Nat.leb 65 n && Nat.leb n 90) ||
  (Nat.leb 97 n && Nat.leb n 122).

(** The right-hand side of the assignment in the loop of [simplify_name]:
    ['_' if s[i].isalnum() or s[i] == '-' else s[i]]. *)
Definition simplify_char (c : ascii) : ascii :=
  if isalnum c || Ascii.eqb c "-" then "_"%char else c.

(** [simplify_name]: [s = list(s)], then [s[i] = ...] for every index in
    [range(len(s))], then [''.join(s)]. *)
Definition simplify_name (s : string) : string :=
  let l := list_ascii_of_string s in
  string_of_list_ascii
    (foldl (fun (l : list ascii) (i : nat) =>
              match l !! i with
              | Some c => <[i := simplify_char c]> l
              | None => l
              end) l (seq 0 (length l))).

(** The characters written [\t] and [\n] in the source. *)
Definition tab : string := String (ascii_of_nat 9) EmptyString.
Definition nl : string := String (ascii_of_nat 10) EmptyString.

(** [cid[:3]]: the channel-group prefix of a channel id. *)
Definition prefix3 (cid : string) : string := String.substring 0 3 cid.

(** [AWG5014Pulsar._awg5014_group_ids]. *)
Definition _awg5014_group_ids (cid : string) : list string :=
  [prefix3 cid; prefix3 cid +:+ "_m1"; prefix3 cid +:+ "_m2"].

(** ** The world outside [pulsar.py] *)

(** Instrument classes as [isinstance] sees them: [AWG5014Pulsar] claims
    [Tektronix_AWG5014] and [VirtualAWG5014], [HDAWG8Pulsar] claims
    [ZI_HDAWG8] and [VirtualAWG8]; [Pulsar] inherits from these two mixins
    and [Instrument] only, so every other class (the UHFQC included) falls
    through to [Instrument] and ends in an [AttributeError]. *)
Inductive instr_class := ClsAWG5014 | ClsHDAWG8 | ClsOther.

Record instrument := { name : string; cls : instr_class }.

(** The instrument drivers and the numeric data they exchange with
    [pulsar.py].  Samples are compared with zero and padded with zeros, and
    nothing else is computed on them. *)
Class Driver := {
  (** value of an instrument parameter, as returned by [obj.get] *)
  pvalue : Type;
  (** one waveform sample *)
  sample : Type;
  (** result of [obj.pack_waveform] *)
  packed : Type;
  (** result of [obj.generate_awg_file] *)
  awg_file : Type;
  (** channel configuration handed to [obj.generate_awg_file] *)
  chan_cfg : Type;
  zero : sample;
  (** [x != 0.] *)
  nonzero : sample -> bool;
  nonzero_zero : nonzero zero = false;
  (** [obj.get(par)] on the instrument called [awg] *)
  hw_get : string -> string -> pvalue;
  (** [obj.timeout()], in seconds *)
  hw_timeout : string -> Z;
  pack_waveform : list sample -> list sample -> list sample -> packed;
  generate_awg_file :
    gmap string packed -> list (list string) -> list Z -> list Z -> list Z ->
    list Z -> chan_cfg -> awg_file;
  (** [Pulsar._awg5014_chan_cfg(awg)], read from the channel parameters *)
  _awg5014_chan_cfg : string -> chan_cfg;
  (** answer of the running-state query of [awg] when asked at time [t] *)
  is_running : string -> N -> bool;
  (** duration in milliseconds of [obj.start()] and of a running-state query *)
  start_cost : N;
  poll_cost : N;
  (** [log.isEnabledFor(logging.INFO)] *)
  info_enabled : bool
}.

Inductive exn :=
| Exception (msg : string)
| TypeError (msg : string)
| KeyError (key : string)
| IndexError
| AttributeError
| UnboundLocalError.

Inductive level := INFO | WARNING.

(** [type(e).__name__]: the class of the exception object. *)
Definition exn_class (e : exn) : string :=
  match e with
  | Exception _ => "Exception"
  | TypeError _ => "TypeError"
  | KeyError _ => "KeyError"
  | IndexError => "IndexError"
  | AttributeError => "AttributeError"
  | UnboundLocalError => "UnboundLocalError"
  end.

Section Model.
Context {D : Driver}.

(** A value passed to [obj.set]: a literal, or a value read back before. *)
Inductive setval := Lit (z : Z) | Val (v : pvalue).

(** Calls on an instrument driver that are not plain parameter reads. *)
Inductive call :=
| CStart
| CStop
| CRunning (t : N) (answer : bool)
| CSet (par : string) (v : setval)
| CTimeout (seconds : Z)
| CGenerateAwgFile (f : awg_file)
| CSendAwgFile (filename : string) (f : awg_file)
| CLoadAwgFile (filename : string)
| CIsAwgReady
| CDCOutput (z : Z).

Inductive event :=
| Call (awg : string) (c : call)
| Log (lvl : level) (msg : string)
| Sleep (ms : N).

(** The mutable state: the [<awg>_active] parameters,
    [Pulsar._awgs_with_waveforms], [Pulsar._awgs_prequeried_state] and the
    clock read by [time.time()] (milliseconds). *)
Record World := {
  awg_active : string -> bool;
  with_wfs : gset string;
  prequeried : bool;
  now : N
}.

Inductive outcome (A : Type) :=
| Ret (a : A)
| Raise (e : exn)
| OutOfFuel.
Global Arguments Ret {A} a.
Global Arguments Raise {A} e.
Global Arguments OutOfFuel {A}.

(** Computations: state passing, an outcome, and the events emitted. *)
Definition M (A : Type) : Type := World -> outcome A * World * list event.

Definition ret {A} (a : A) : M A := fun w => (Ret a, w, []).

Definition bind {A B} (m : M A) (k : A -> M B) : M B := fun w =>
  match m w with
  | (Ret a, w1, t1) => let '(r, w2, t2) := k a w1 in (r, w2, t1 ++ t2)
  | (Raise e, w1, t1) => (Raise e, w1, t1)
  | (OutOfFuel, w1, t1) => (OutOfFuel, w1, t1)
  end.

Definition raise {A} (e : exn) : M A := fun w => (Raise e, w, []).
Definition out_of_fuel {A} : M A := fun w => (OutOfFuel, w, []).
Definition emit (e : event) : M unit := fun w => (Ret tt, w, [e]).

Notation "x <- m ;; k" := (bind m (fun x => k))
  (at level 100, m at next level, right associativity).
Notation "m ;;; k" := (bind m (fun _ => k))
  (at level 100, right associativity).

(** [for x in l: body x]. *)
Fixpoint for_ {A} (l : list A) (body : A -> M unit) : M unit :=
  match l with
  | [] => ret tt
  | x :: l' => body x ;;; for_ l' body
  end.

(** A [for] loop that carries local variables [acc]. *)
Fixpoint for_acc {A B} (l : list A) (acc : B) (body : B -> A -> M B) : M B :=
  match l with
  | [] => ret acc
  | x :: l' => acc' <- body acc x ;; for_acc l' acc' body
  end.

(** The world after [ms] milliseconds. *)
Definition tick (ms : N) (w : World) : World :=
  {| awg_active := awg_active w; with_wfs := with_wfs w;
     prequeried := prequeried w; now := (now w + ms)%N |}.

(** [time.time()] and [time.sleep]. *)
Definition time_time : M N := fun w => (Ret (now w), w, []).
Definition elapse (ms : N) : M unit := fun w => (Ret tt, tick ms w, []).
Definition time_sleep (ms : N) : M unit := emit (Sleep ms) ;;; elapse ms.

Definition log_info (msg : string) : M unit := emit (Log INFO msg).
Definition log_warning (msg : string) : M unit := emit (Log WARNING msg).

(** ** The Pulsar meta-instrument *)

Record Pulsar := {
  (** [Instrument.find_instrument]: the instruments that exist, by name *)
  instruments : gmap string instr_class;
  (** [Pulsar.awgs], the names of the registered AWGs *)
  awgs : gset string;
  (** the [master_awg] parameter; [None] is Python's [None] *)
  master_awg : option string
}.

(** [Pulsar.AWG_obj(awg=awg)]. *)
Definition AWG_obj (p : Pulsar) (awg : string) : M instrument :=
  match instruments p !! awg with
  | Some c => ret {| name := awg; cls := c |}
  | None => raise (KeyError awg)
  end.

(** An instrument that one of the two mixins claims. *)
Definition supported (p : Pulsar) (awg : string) : Prop :=
  instruments p !! awg = Some ClsAWG5014 \/ instruments p !! awg = Some ClsHDAWG8.

(** [Pulsar.active_awgs]: the registered AWGs whose flag is set. *)
Definition active_set (p : Pulsar) (w : World) : gset string :=
  filter (fun awg => awg_active w awg = true) (awgs p).

Definition active_awgs (p : Pulsar) : M (gset string) := fun w =>
  (Ret (active_set p w), w, []).

(** [Pulsar.awgs_with_waveforms()], the getter. *)
Definition awgs_with_waveforms : M (gset string) :=
  fun w => (Ret (with_wfs w), w, []).

(** [Pulsar.awgs_with_waveforms(awg)], the adder. *)
Definition awgs_with_waveforms_add (awg : string) : M unit := fun w =>
  (Ret tt, {| awg_active := awg_active w; with_wfs := {[awg]} ∪ with_wfs w;
              prequeried := prequeried w; now := now w |}, []).

(** [Pulsar._start_awg] and [Pulsar._stop_awg]. *)
Definition _start_awg (p : Pulsar) (awg : string) : M unit :=
  obj <- AWG_obj p awg ;;
  emit (Call (name obj) CStart) ;;; elapse start_cost.

Definition _stop_awg (p : Pulsar) (awg : string) : M unit :=
  obj <- AWG_obj p awg ;;
  emit (Call (name obj) CStop).

(** [Pulsar._is_awg_running]: dispatched through the mixins; an instrument
    that no mixin claims ends in the [TypeError] of the [except] clause. *)
Definition _is_awg_running (p : Pulsar) (awg : string) : M bool :=
  obj <- AWG_obj p awg ;;
  match cls obj with
  | ClsAWG5014 | ClsHDAWG8 =>
      t <- time_time ;;
      let answer := is_running (name obj) t in
      emit (Call (name obj) (CRunning t answer)) ;;; elapse poll_cost ;;;
      ret answer
  | ClsOther => raise (TypeError ("Unsupported AWG instrument: " +:+ name obj))
  end.

(** The [while not (good or time.time() > tstart + 10)] loop of [start];
    [fuel] bounds the number of iterations. *)
Fixpoint wait_running (fuel : nat) (p : Pulsar) (awg : string) (tstart : N)
  : M bool :=
  match fuel with
  | O => out_of_fuel
  | S fuel' =>
      t <- time_time ;;
      if (tstart + 10000 <? t)%N then ret false
      else
        running <- _is_awg_running p awg ;;
        if running then ret true
        else time_sleep 100 ;;; wait_running fuel' p awg tstart
  end.

Definition timeout_error (awg : string) : exn :=
  Exception ("AWG " +:+ awg +:+ " did not start in 10s").

(** [Pulsar.start]. *)
Definition start (fuel : nat) (p : Pulsar) : M unit :=
  awgs_with_waveforms <- awgs_with_waveforms ;;
  active <- active_awgs p ;;
  let used_awgs := elements (active ∩ awgs_with_waveforms) in
  match master_awg p with
  | None => for_ used_awgs (_start_awg p)
  | Some master =>
      for_ used_awgs (fun awg =>
        if decide (awg <> master) then _start_awg p awg else ret tt) ;;;
      tstart <- time_time ;;
      for_ used_awgs (fun awg =>
        if decide (awg = master) then ret tt
        else
          good <- wait_running fuel p awg tstart ;;
          if good then ret tt
          else raise (timeout_error awg)) ;;;
      _start_awg p master
  end.

(** [Pulsar.stop]. *)
Definition stop (p : Pulsar) : M unit :=
  awgs_with_waveforms <- awgs_with_waveforms ;;
  active <- active_awgs p ;;
  let used_awgs := elements (active ∩ awgs_with_waveforms) in
  for_ used_awgs (_stop_awg p).

(** ** Sequences, as the programming paths read them *)

(** The array of samples of one channel. *)
Definition waveform : Type := list sample.

(** Dictionaries from channel id to waveform, and from codeword to those;
    the key [None] of the latter is the string ['no_codeword']. *)
Abbreviation cid_map := (gmap string waveform).
Abbreviation cw_map := (gmap (option nat) (gmap string waveform)).

(** What [Segment.waveforms(awgs=[awg])] returns: per AWG name, a
    dictionary keyed by [(i, el)]. *)
Record Segment := {
  seg_waveforms : gmap string (gmap (nat * string) cw_map)
}.

(** The resolved [Sequence] read by [_program_awg]: [segments] is an ordered
    dictionary, [awg_sequence] maps an AWG name to its list of
    [(element, segment)] pairs. *)
Record Sequence := {
  seq_name : string;
  segments : list (string * Segment);
  awg_sequence : gmap string (list (string * string))
}.

(** One entry of [sequence.elements] of the legacy [Sequence]. *)
Record Element := {
  wfname : string;
  repetitions : Z;
  goto_target : option string;
  trigger_wait : bool
}.

(** The legacy [Sequence] read by [_program_awg_old].  Its methods
    [element_count] and [element_index] belong to a class outside this
    module and are taken as given. *)
Record LegacySequence := {
  lseq_name : string;
  elements_ : list Element;
  codewords : list (nat * string);
  element_count : Z;
  element_index : string -> nat
}.

(** Order of Python tuples [(i, el)] and of strings. *)
Definition key_leb (k1 k2 : nat * string) : bool :=
  Nat.ltb k1.1 k2.1 || (Nat.eqb k1.1 k2.1 && String.leb k1.2 k2.2).

(** [sorted(d.items())] for a dictionary keyed by [(i, el)]. *)
Definition sorted_items {V} (d : gmap (nat * string) V)
  : list ((nat * string) * V) :=
  merge_sort (fun x y => Is_true (key_leb x.1 y.1)) (map_to_list d).

(** [l = list(s); l.sort()] for a set of strings. *)
Definition sorted_list (s : gset string) : list string :=
  merge_sort (fun a b => Is_true (String.leb a b)) (elements s).

(** Python's [-float('inf')], or a length. *)
Inductive extlen := NegInf | Len (n : nat).

(** [max(maxlen, len(wf))]. *)
Definition max_len (m : extlen) (n : nat) : extlen :=
  match m with
  | NegInf => Len n
  | Len k => Len (Nat.max k n)
  end.

(** [np.pad(wf, (0, n), 'constant', constant_values=0)]. *)
Definition np_pad (wf : waveform) (n : nat) : waveform := wf ++ replicate n zero.

(** [wf.any()]. *)
Definition any (wf : waveform) : bool := existsb nonzero wf.

(** [d[key]] on a dictionary with string keys. *)
Definition getitem {V} (d : gmap string V) (key : string) : M V :=
  match d !! key with
  | Some v => ret v
  | None => raise (KeyError key)
  end.

(** The sixteen marker parameters saved and restored around programming. *)
Definition marker_pars : list string :=
  flat_map (fun ch => map (fun m =>
    "ch" +:+ pretty ch +:+ "_m" +:+ pretty m +:+ "_low") [1; 2]) [1; 2; 3; 4] ++
  flat_map (fun ch => map (fun m =>
    "ch" +:+ pretty ch +:+ "_m" +:+ pretty m +:+ "_high") [1; 2]) [1; 2; 3; 4].

Record PulsarCfg := {
  pulsar : Pulsar;
  (** whether the [<channel>_options] of the channel with id [grp] on [awg]
      asks for [offset_mode == 'hardware']; [None] when reading the
      parameter raises *)
  offset_mode_hardware : string -> string -> option bool
}.

(** [AWG5014Pulsar._awg5014_activate_channels]. *)
Definition _awg5014_activate_channels (p : Pulsar) (grps : list string)
    (awg : string) : M unit :=
  for_ [1; 2; 3; 4] (fun i =>
    obj <- AWG_obj p awg ;;
    emit (Call (name obj) (CSet ("ch" +:+ pretty i +:+ "_state") (Lit 0)))) ;;;
  for_ grps (fun grp =>
    obj <- AWG_obj p awg ;;
    emit (Call (name obj) (CSet (grp +:+ "_state") (Lit 1)))).

(** ** [AWG5014Pulsar._program_awg] *)

(** The first loop: per segment, the waveforms of the elements of this AWG.
    [seg_wfs] is kept as the list of per-segment dictionaries, in the order of
    [sequence.segments]. *)
Definition collect_element (el_wfs : gmap (nat * string) cid_map)
    (entry : (nat * string) * cw_map) : M (gmap (nat * string) cid_map) :=
  if Nat.ltb 1 (size entry.2) || bool_decide (entry.2 !! None = None)
  then raise (Exception "AWG5014 does not support codewords")
  else
    match entry.2 !! None with
    | Some cid_wfs => ret (<[entry.1 := cid_wfs]> el_wfs)
    | None => raise (KeyError "no_codeword")
    end.

Definition collect_segment (obj : instrument)
    (acc : list (gmap (nat * string) cid_map) * bool)
    (segment : string * Segment)
  : M (list (gmap (nat * string) cid_map) * bool) :=
  match seg_waveforms segment.2 !! name obj with
  | None => ret (acc.1 ++ [∅], acc.2)
  | Some wfs =>
      awgs_with_waveforms_add (name obj) ;;;
      el_wfs <- for_acc (map_to_list wfs) ∅ collect_element ;;
      ret (acc.1 ++ [el_wfs], true)
  end.

(** The channel groups with a non-zero sample somewhere. *)
Definition used_grps (seg_wfs : list (gmap (nat * string) cid_map))
  : list string :=
  sorted_list
    (foldl (fun grps el_wfs =>
       foldl (fun grps (cid_wfs : cid_map) =>
         foldl (fun grps (entry : string * waveform) =>
                  if any entry.2 then {[prefix3 entry.1]} ∪ grps else grps)
               grps (map_to_list cid_wfs))
         grps (map_to_list el_wfs).*2)
     ∅ seg_wfs).

(** [maxlen] of one element. *)
Definition maxlen_of (cid_wfs : cid_map) : extlen :=
  foldl (fun maxlen (wf : waveform) => max_len maxlen (length wf))
        NegInf (map_to_list cid_wfs).*2.

(** The message of the warning about a non-zero first sample; the literal
    in the source continues over a line break and keeps its indentation. *)
Definition nonzero_warning (el awg : string) : string :=
  "Element " +:+ el +:+
  " starts with non zero entry on                                         " +:+
  awg +:+ ".".

(** The waveforms of one channel group of one element, padded.  The
    default [np.zeros(maxlen)] is evaluated whether or not the channel has a
    waveform, and refuses the float [-inf]. *)
Definition pad_channel (obj : instrument) (el : string) (cid_wfs : cid_map)
    (maxlen : extlen) (grp_wfs : cid_map) (cid : string) : M cid_map :=
  match maxlen with
  | NegInf =>
      raise (TypeError "'float' object cannot be interpreted as an integer")
  | Len n =>
      let wf := default (replicate n zero) (cid_wfs !! cid) in
      let wf := np_pad wf (n - length wf) in
      match wf with
      | [] => raise IndexError
      | first :: _ =>
          (if nonzero first then log_warning (nonzero_warning el (name obj))
           else ret tt) ;;;
          ret (<[cid := wf]> grp_wfs)
      end
  end.

Definition pad_group (obj : instrument) (el : string) (cid_wfs : cid_map)
    (maxlen : extlen) (grp : string) : M cid_map :=
  for_acc (_awg5014_group_ids grp) ∅ (pad_channel obj el cid_wfs maxlen).

(** One iteration of [for grp in grps]: the key and the packed waveform. *)
Definition pack_group (obj : instrument) (el : string) (cid_wfs : cid_map)
    (maxlen : extlen) (grp : string) : M (string * packed) :=
  grp_wfs <- pad_group obj el cid_wfs maxlen grp ;;
  let wfname := el +:+ "_" +:+ grp in
  a <- getitem grp_wfs grp ;;
  m1 <- getitem grp_wfs (grp +:+ "_m1") ;;
  m2 <- getitem grp_wfs (grp +:+ "_m2") ;;
  ret (wfname, pack_waveform a m1 m2).

(** The packing loops over segments, elements and groups. *)
Definition pack_element (obj : instrument) (grps : list string)
    (packed_waveforms : gmap string packed)
    (entry : (nat * string) * cid_map) : M (gmap string packed) :=
  let el := entry.1.2 in
  let maxlen := maxlen_of entry.2 in
  for_acc grps packed_waveforms (fun packed_waveforms grp =>
    kv <- pack_group obj el entry.2 maxlen grp ;;
    ret (<[kv.1 := kv.2]> packed_waveforms)).

Definition pack_segment (obj : instrument) (grps : list string)
    (packed_waveforms : gmap string packed)
    (el_wfs : gmap (nat * string) cid_map) : M (gmap string packed) :=
  for_acc (sorted_items el_wfs) packed_waveforms (pack_element obj grps).

Definition pack_all (obj : instrument)
    (seg_wfs : list (gmap (nat * string) cid_map)) (grps : list string)
  : M (gmap string packed) :=
  for_acc seg_wfs ∅ (pack_segment obj grps).

(** [wfname_l]: per group, the waveform name of every sequence element. *)
Definition grp_wfnames (grp : string) (els : list (string * string))
  : list string :=
  map (fun es : string * string => es.1 +:+ "_" +:+ grp) els.

Definition build_wfname_l (obj : instrument) (sequence : Sequence)
    (grps : list string) : M (list (list string)) :=
  for_acc grps [] (fun wfname_l grp =>
    els <- getitem (awg_sequence sequence) (name obj) ;;
    ret (wfname_l ++ [grp_wfnames grp els])).

(** [l[-1] = x]. *)
Definition set_last (l : list Z) (x : Z) : M (list Z) :=
  match l with
  | [] => raise IndexError
  | _ => ret (<[Nat.pred (length l) := x]> l)
  end.

Definition analog_channels : list string := ["ch1"; "ch2"; "ch3"; "ch4"].

(** Generation and upload of the AWG file. *)
Definition upload (obj : instrument) (filename : string)
    (packed_waveforms : gmap string packed) (wfname_l : list (list string))
    (nrep_l wait_l goto_l logic_jump_l : list Z) : M (option awg_file) :=
  if Nat.ltb 0 (length wfname_l) then
    let awg_file := generate_awg_file packed_waveforms wfname_l nrep_l wait_l
                      goto_l logic_jump_l (_awg5014_chan_cfg (name obj)) in
    emit (Call (name obj) (CGenerateAwgFile awg_file)) ;;;
    emit (Call (name obj) (CSendAwgFile filename awg_file)) ;;;
    emit (Call (name obj) (CLoadAwgFile filename)) ;;;
    ret (Some awg_file)
  else ret None.

(** Restoring the offsets and the marker parameters read before. *)
Definition restore_offsets (obj : instrument) : M unit :=
  for_ analog_channels (fun ch =>
    emit (Call (name obj)
            (CSet (ch +:+ "_offset") (Val (hw_get (name obj) (ch +:+ "_offset")))))).

Definition restore_pars (obj : instrument) : M unit :=
  for_ marker_pars (fun par =>
    emit (Call (name obj) (CSet par (Val (hw_get (name obj) par))))).

(** What follows the first loop, whose variables [seg_wfs] and
    [awg_has_waveforms] are the two components of [acc]. *)
Definition program_5014_rest (c : PulsarCfg) (obj : instrument)
    (sequence : Sequence)
    (acc : list (gmap (nat * string) cid_map) * bool) : M (option awg_file) :=
  let seg_wfs := acc.1 in
  let awg_has_waveforms := acc.2 in
  if negb awg_has_waveforms then
    _awg5014_activate_channels (pulsar c) [] (name obj) ;;; ret None
  else
    let grps := used_grps seg_wfs in
    packed_waveforms <- pack_all obj seg_wfs grps ;;
    log_info ("Programming " +:+ name obj +:+ " sequence '" +:+
              seq_name sequence +:+ "' (" +:+
              pretty (length (segments sequence)) +:+ " element(s)) " +:+ tab) ;;;
    wfname_l <- build_wfname_l obj sequence grps ;;
    els <- getitem (awg_sequence sequence) (name obj) ;;
    let no_of_elements := length els in
    let nrep_l := replicate no_of_elements 1%Z in
    goto_l <- set_last (replicate no_of_elements 0%Z) 1%Z ;;
    let wait_l := replicate no_of_elements 1%Z in
    let logic_jump_l := replicate no_of_elements 0%Z in
    awg_file <- upload obj (seq_name sequence +:+ "_FILE.AWG") packed_waveforms
                  wfname_l nrep_l wait_l goto_l logic_jump_l ;;
    restore_offsets obj ;;;
    restore_pars obj ;;;
    time_sleep 100 ;;;
    emit (Call (name obj) CIsAwgReady) ;;;
    _awg5014_activate_channels (pulsar c) grps (name obj) ;;;
    let hardware_offsets :=
      existsb (fun grp =>
        default false (offset_mode_hardware c (name obj) grp)) grps in
    emit (Call (name obj) (CDCOutput (if hardware_offsets then 1 else 0)%Z)) ;;;
    ret awg_file.

(** The body of [AWG5014Pulsar._program_awg] for an AWG5014. *)
Definition program_5014_body (c : PulsarCfg) (obj : instrument)
    (sequence : Sequence) : M (option awg_file) :=
  acc <- for_acc (segments sequence) ([], false) (collect_segment obj) ;;
  program_5014_rest c obj sequence acc.

(** [HDAWG8Pulsar._program_awg], whose generation of sequencer code is not
    part of this development, stands behind [hdawg8_body]. *)
Variable hdawg8_body : instrument -> Sequence -> M unit.

(** [HDAWG8Pulsar._program_awg]: the [isinstance] guard, and [super()]
    reaching [Instrument], which has no such method. *)
Definition HDAWG8Pulsar_program_awg (obj : instrument) (sequence : Sequence)
  : M unit :=
  match cls obj with
  | ClsHDAWG8 => hdawg8_body obj sequence
  | _ => raise AttributeError
  end.

(** [AWG5014Pulsar._program_awg]. *)
Definition AWG5014Pulsar_program_awg (c : PulsarCfg) (obj : instrument)
    (sequence : Sequence) : M (option awg_file) :=
  match cls obj with
  | ClsAWG5014 => program_5014_body c obj sequence
  | _ => HDAWG8Pulsar_program_awg obj sequence ;;; ret None
  end.

(** [Pulsar._program_awg]: an [AttributeError] becomes a [TypeError]. *)
Definition Pulsar_program_awg (c : PulsarCfg) (obj : instrument)
    (sequence : Sequence) : M unit := fun w =>
  match AWG5014Pulsar_program_awg c obj sequence w with
  | (Ret _, w1, t1) => (Ret tt, w1, t1)
  | (Raise AttributeError, w1, t1) =>
      (Raise (TypeError ("Unsupported AWG instrument: " +:+ name obj)), w1, t1)
  | (Raise e, w1, t1) => (Raise e, w1, t1)
  | (OutOfFuel, w1, t1) => (OutOfFuel, w1, t1)
  end.

(** [Pulsar.clock(awg=awg)] while nothing is prequeried: a read of the
    instrument, which fails for an instrument that no mixin claims. *)
Definition clock (p : Pulsar) (awg : string) : M unit :=
  obj <- AWG_obj p awg ;;
  match cls obj with
  | ClsOther => raise (TypeError ("Unsupported AWG instrument: " +:+ name obj))
  | _ => ret tt
  end.

Definition set_prequeried (b : bool) : M unit := fun w =>
  (Ret tt, {| awg_active := awg_active w; with_wfs := with_wfs w;
              prequeried := b; now := now w |}, []).

(** [Pulsar.AWGs_prequeried(status)] for a Boolean [status]. *)
Definition AWGs_prequeried (p : Pulsar) (status : bool) : M unit :=
  if status then
    set_prequeried false ;;;
    for_ (elements (awgs p)) (clock p) ;;;
    set_prequeried true
  else set_prequeried false.

Definition reset_with_wfs : M unit := fun w =>
  (Ret tt, {| awg_active := awg_active w; with_wfs := ∅;
              prequeried := prequeried w; now := now w |}, []).

(** [Pulsar.program_awgs]; [awgs = None] is the default ['all'].  The
    timing resolution ([resolve_segment], [sequence_for_awg]) has already
    produced the data held by [sequence]. *)
Definition program_awgs (c : PulsarCfg) (sequence : Sequence)
    (awgs : option (list string)) : M unit :=
  reset_with_wfs ;;;
  awgs <- match awgs with
          | None => active <- active_awgs (pulsar c) ;; ret (elements active)
          | Some l => ret l
          end ;;
  AWGs_prequeried (pulsar c) true ;;;
  for_ awgs (fun awg =>
    obj <- AWG_obj (pulsar c) awg ;;
    Pulsar_program_awg c obj sequence) ;;;
  AWGs_prequeried (pulsar c) false.

(** ** [AWG5014Pulsar._program_awg_old], the legacy path *)

(** The channel groups named by the channel ids of [el_wfs]. *)
Definition used_grps_old (el_wfs : gmap (nat * string) cid_map) : list string :=
  sorted_list
    (foldl (fun grps (cid_wfs : cid_map) =>
       foldl (fun grps (entry : string * waveform) => {[prefix3 entry.1]} ∪ grps)
             grps (map_to_list cid_wfs))
     ∅ (map_to_list el_wfs).*2).

(** [maxlen = 1], then the maximum with every length. *)
Definition maxlen_old (cid_wfs : cid_map) : nat :=
  foldl (fun maxlen (wf : waveform) => Nat.max maxlen (length wf))
        1 (map_to_list cid_wfs).*2.

(** The local variables of the packing loop that are read later:
    [packed_waveforms], [elements_with_non_zero_first_points] and [wfname],
    which is unbound until its first assignment. *)
Record PackOld := {
  po_packed : gmap string packed;
  po_nonzero : gset string;
  po_wfname : option string
}.

Definition pad_channel_old (el : string) (cid_wfs : cid_map) (maxlen : nat)
    (acc : cid_map * gset string) (cid : string) : M (cid_map * gset string) :=
  let wf := default (replicate maxlen zero) (cid_wfs !! cid) in
  let wf := np_pad wf (maxlen - length wf) in
  match wf with
  | [] => raise IndexError
  | first :: _ =>
      ret (<[cid := wf]> acc.1,
           if nonzero first then {[el]} ∪ acc.2 else acc.2)
  end.

Definition pad_group_old (el : string) (cid_wfs : cid_map) (maxlen : nat)
    (grp : string) (nz : gset string) : M (cid_map * gset string) :=
  for_acc (_awg5014_group_ids grp) (∅, nz) (pad_channel_old el cid_wfs maxlen).

Definition pack_group_old (el : string) (cid_wfs : cid_map) (maxlen : nat)
    (st : PackOld) (grp : string) : M PackOld :=
  r <- pad_group_old el cid_wfs maxlen grp (po_nonzero st) ;;
  let wfname := el +:+ "_" +:+ grp in
  a <- getitem r.1 grp ;;
  m1 <- getitem r.1 (grp +:+ "_m1") ;;
  m2 <- getitem r.1 (grp +:+ "_m2") ;;
  ret {| po_packed := <[wfname := pack_waveform a m1 m2]> (po_packed st);
         po_nonzero := r.2;
         po_wfname := Some wfname |}.

Definition pack_element_old (grps : list string) (st : PackOld)
    (entry : (nat * string) * cid_map) : M PackOld :=
  let el := entry.1.2 in
  let maxlen := maxlen_old entry.2 in
  for_acc grps st (pack_group_old el entry.2 maxlen).

Definition pack_all_old (el_wfs : gmap (nat * string) cid_map)
    (grps : list string) : M PackOld :=
  for_acc (sorted_items el_wfs)
    {| po_packed := ∅; po_nonzero := ∅; po_wfname := None |}
    (pack_element_old grps).

(** [wfname_l] of the legacy path; the variable [wfname] keeps its last
    value when a codeword element finds [sequence.codewords] empty. *)
Definition wfname_of_element (sequence : LegacySequence) (grp : string)
    (acc : list string * option string) (el : Element)
  : M (list string * option string) :=
  let wfname' :=
    if String.eqb (wfname el) "codeword" then
      match codewords sequence with
      | (_, elwfname) :: _ => Some (elwfname +:+ "_" +:+ grp)
      | [] => acc.2
      end
    else Some (wfname el +:+ "_" +:+ grp) in
  match wfname' with
  | Some n => ret (acc.1 ++ [n], wfname')
  | None => raise UnboundLocalError
  end.

Definition wfnames_of_group (sequence : LegacySequence)
    (acc : list (list string) * option string) (grp : string)
  : M (list (list string) * option string) :=
  r <- for_acc (elements_ sequence) ([], acc.2) (wfname_of_element sequence grp) ;;
  ret (acc.1 ++ [r.1], r.2).

Definition build_wfname_l_old (sequence : LegacySequence) (grps : list string)
    (wfname0 : option string) : M (list (list string)) :=
  r <- for_acc grps ([], wfname0) (wfnames_of_group sequence) ;;
  ret r.1.

Definition repetitions_error (awg : string) (el : Element) : exn :=
  Exception ("The number of repetitions of AWG '" +:+ awg +:+ "' element '" +:+
             wfname el +:+ "' are out of range. Valid range = 1 to 65536 ('" +:+
             pretty (repetitions el) +:+ "' received)").

Definition trigger_warning (el : string) : string :=
  "Pulsar: Trigger wait set for element " +:+ el +:+
  " with a non-zero first point".

(** The sequence lists [nrep_l], [wait_l], [goto_l], [logic_jump_l]. *)
Record SeqLists := {
  nrep_l : list Z;
  wait_l : list Z;
  goto_l : list Z;
  logic_jump_l : list Z
}.

Definition out_of_range (el : Element) : bool :=
  (repetitions el <? 1)%Z || (65536 <? repetitions el)%Z.

Definition append_element (obj : instrument) (sequence : LegacySequence)
    (nz : gset string) (ls : SeqLists) (el : Element) : M SeqLists :=
  let nrep := nrep_l ls ++ [repetitions el] in
  if out_of_range el
  then raise (repetitions_error (name obj) el)
  else
    let goto := goto_l ls ++
      [match goto_target el with
       | Some target => Z.of_nat (element_index sequence target)
       | None => 0%Z
       end] in
    let jump := logic_jump_l ls ++ [0%Z] in
    if trigger_wait el then
      (if bool_decide (wfname el ∈ nz)
       then log_warning (trigger_warning (wfname el)) else ret tt) ;;;
      ret {| nrep_l := nrep; wait_l := wait_l ls ++ [1%Z];
             goto_l := goto; logic_jump_l := jump |}
    else
      ret {| nrep_l := nrep; wait_l := wait_l ls ++ [0%Z];
             goto_l := goto; logic_jump_l := jump |}.

Definition build_lists_old (obj : instrument) (sequence : LegacySequence)
    (nz : gset string) : M SeqLists :=
  for_acc (elements_ sequence)
    {| nrep_l := []; wait_l := []; goto_l := []; logic_jump_l := [] |}
    (append_element obj sequence nz).

(** [log.info(msg, end=' ')]: the logger forwards the unknown keyword to
    [Logger._log] only when the level INFO is enabled. *)
Definition log_info_end (msg : string) : M unit :=
  if info_enabled
  then raise (TypeError "_log() got an unexpected keyword argument 'end'")
  else ret tt.

Definition too_large_warning (sequence : LegacySequence) : string :=
  "Error: trying to program '" +:+ lseq_name sequence +:+ "' (" +:+
  pretty (element_count sequence) +:+ "'" +:+ " element(s))..." +:+ nl +:+
  " Sequence contains more than " +:+ "8000 elements, Aborting.".

Definition program_5014_old_body (c : PulsarCfg) (obj : instrument)
    (sequence : LegacySequence) (el_wfs : gmap (nat * string) cid_map)
    (loop : bool) : M (option awg_file) :=
  let old_timeout := hw_timeout (name obj) in
  emit (Call (name obj) (CTimeout (Z.max 180 old_timeout))) ;;;
  let grps := used_grps_old el_wfs in
  po <- pack_all_old el_wfs grps ;;
  _t0 <- time_time ;;
  if (8000 <? element_count sequence)%Z then
    log_warning (too_large_warning sequence) ;;; ret None
  else
    log_info_end ("Programming " +:+ name obj +:+ " sequence '" +:+
                  lseq_name sequence +:+ "' (" +:+
                  pretty (element_count sequence) +:+ " element(s)) " +:+ tab) ;;;
    wfname_l <- build_wfname_l_old sequence grps (po_wfname po) ;;
    ls <- build_lists_old obj sequence (po_nonzero po) ;;
    goto <- (if loop && Nat.ltb 0 (length (goto_l ls))
             then set_last (goto_l ls) 1%Z else ret (goto_l ls)) ;;
    awg_file <- upload obj (lseq_name sequence +:+ "_FILE.AWG") (po_packed po)
                  wfname_l (nrep_l ls) (wait_l ls) goto (logic_jump_l ls) ;;
    restore_offsets obj ;;;
    emit (Call (name obj) (CTimeout old_timeout)) ;;;
    restore_pars obj ;;;
    time_sleep 100 ;;;
    emit (Call (name obj) CIsAwgReady) ;;;
    _awg5014_activate_channels (pulsar c) grps (name obj) ;;;
    hardware_offsets <- for_acc grps false (fun hardware_offsets grp =>
      match offset_mode_hardware c (name obj) grp with
      | Some hw => ret (hw || hardware_offsets)
      | None => raise (KeyError (grp +:+ "_options"))
      end) ;;
    emit (Call (name obj) (CDCOutput (if hardware_offsets then 1 else 0)%Z)) ;;;
    log_info ("Finished programming " +:+ name obj) ;;;
    ret awg_file.

(** [AWG5014Pulsar._program_awg_old]; for another instrument [super()] is
    called with two arguments more than [HDAWG8Pulsar._program_awg] takes. *)
Definition AWG5014Pulsar_program_awg_old (c : PulsarCfg) (obj : instrument)
    (sequence : LegacySequence) (el_wfs : gmap (nat * string) cid_map)
    (loop : bool) : M (option awg_file) :=
  match cls obj with
  | ClsAWG5014 => program_5014_old_body c obj sequence el_wfs loop
  | _ => raise (TypeError "_program_awg() takes 3 positional arguments but 5 were given")
  end.

(** ** [HDAWG8Pulsar._old_program_awg]: the waveform definitions *)


(** The events of the polling phase of [start]: a running-state query,
    inside the ten-second window that starts at [tstart], of an AWG that
    satisfies [ok], or a sleep of 0.1 s. *)
Definition poll_event (ok : string -> Prop) (tstart : N) (e : event) : Prop :=
  match e with
  | Call awg (CRunning t answer) =>
      ok awg /\ (tstart <= t <= tstart + 10000)%N /\ answer = is_running awg t
  | Sleep ms => ms = 100%N
  | _ => False
  end.

(** ** Properties of computations *)

(** Whatever the outcome of [m], the worlds before and after are related by
    [R] and every event emitted satisfies [Ev]; a value returned satisfies
    [Q]. *)
Definition always {A} (R : World -> World -> Prop) (Ev : event -> Prop)
    (Q : A -> Prop) (m : M A) : Prop :=
  forall w r w' tr, m w = (r, w', tr) ->
    R w w' /\ Forall Ev tr /\ forall a, r = Ret a -> Q a.

Definition is_warning (e : event) : Prop :=
  match e with Log WARNING _ => True | _ => False end.

(** Generation, transfer or loading of an AWG file. *)
Definition is_uploadb (e : event) : bool :=
  match e with
  | Call _ (CGenerateAwgFile _) | Call _ (CSendAwgFile _ _)
  | Call _ (CLoadAwgFile _) => true
  | _ => false
  end.


(** An AWG file is sent to the instrument [awg]. *)
Definition sent_to (awg : string) (e : event) : bool :=
  match e with
  | Call a (CSendAwgFile _ _) => String.eqb a awg
  | _ => false
  end.

(** The computation has returned a value. *)
Definition returns {A} (r : outcome A) : bool :=
  match r with Ret _ => true | _ => false end.

(** ** Auxiliary notions for the proofs *)

(** The array that [pad_channel] stores for [cid]. *)
Definition padded (cid_wfs : gmap string waveform) (n : nat) (cid : string)
  : waveform :=
  np_pad (default (replicate n zero) (cid_wfs !! cid))
         (n - length (default (replicate n zero) (cid_wfs !! cid))).

(** The warnings that [pad_group] emits for the channels [ids]. *)
Definition pad_warnings (obj : instrument) (el : string)
    (cid_wfs : gmap string waveform) (n : nat) (ids : list string) : list event :=
  flat_map (fun cid =>
    match padded cid_wfs n cid with
    | first :: _ =>
        if nonzero first then [Log WARNING (nonzero_warning el (name obj))] else []
    | [] => []
    end) ids.

(** The dictionary [grp_wfs] after the channels [ids]. *)
Definition pad_result (cid_wfs : gmap string waveform) (n : nat)
    (acc : gmap string waveform) (ids : list string) : gmap string waveform :=
  foldl (fun g cid => <[cid := padded cid_wfs n cid]> g) acc ids.

(** What the first loop leaves in [seg_wfs] for one segment. *)
Definition collected (awg : string) (segment : string * Segment)
    (el_wfs : gmap (nat * string) (gmap string waveform)) : Prop :=
  match seg_waveforms segment.2 !! awg with
  | None => el_wfs = ∅
  | Some wfs => forall key c, el_wfs !! key = Some c <-> wfs !! key = Some {[None := c]}
  end.

(** The world once [awg] has been added to the AWGs with waveforms. *)
Definition added (awg : string) (w : World) : World :=
  {| awg_active := awg_active w; with_wfs := {[awg]} ∪ with_wfs w;
     prequeried := prequeried w; now := now w |}.

(** No element of the AWG uses codewords. *)
Definition no_codewords (awg : string) (segs : list (string * Segment)) : Prop :=
  forall segment wfs key cws,
    segment ∈ segs -> seg_waveforms segment.2 !! awg = Some wfs ->
    wfs !! key = Some cws -> exists c, cws = {[None := c]}.

(** [m] returns, leaves the world as it is, and emits only warnings, among
    them every message in [T]. *)
Definition warns_only {A} (m : M A) (w : World) (T : string -> Prop) : Prop :=
  exists a tr,
    m w = (Ret a, w, tr) /\ Forall is_warning tr /\
    forall msg, T msg -> Log WARNING msg ∈ tr.

(** The messages about the channels of group [grp] of an element. *)
Definition group_warnings (awg el : string) (cid_wfs : gmap string waveform)
    (grp : string) (msg : string) : Prop :=
  exists cid first rest,
    cid ∈ _awg5014_group_ids grp /\ cid_wfs !! cid = Some (first :: rest) /\
    nonzero first = true /\ msg = nonzero_warning el awg.

(** Every element of [seg_wfs] has a waveform that is not empty. *)
Definition elements_nonempty
    (seg_wfs : list (gmap (nat * string) (gmap string waveform))) : Prop :=
  forall el_wfs key cid_wfs,
    el_wfs ∈ seg_wfs -> el_wfs !! key = Some cid_wfs ->
    exists cid wf, cid_wfs !! cid = Some wf /\ wf <> [].

(** No element of the AWG uses codewords, and each has a waveform that is
    not empty. *)
Definition plain_elements (awg : string) (segs : list (string * Segment)) : Prop :=
  forall segment wfs key cws,
    segment ∈ segs -> seg_waveforms segment.2 !! awg = Some wfs ->
    wfs !! key = Some cws ->
    exists c cid wf, cws = {[None := c]} /\ c !! cid = Some wf /\ wf <> [].

(** The driver calls of [_awg5014_activate_channels]. *)
Definition activate_events (awg : string) (grps : list string) : list event :=
  ((fun i : nat => Call awg (CSet ("ch" +:+ pretty i +:+ "_state") (Lit 0)))
     <$> [1; 2; 3; 4]) ++
  ((fun grp => Call awg (CSet (grp +:+ "_state") (Lit 1))) <$> grps).

(** The driver calls that follow the upload. *)
Definition finish_events (c : PulsarCfg) (awg : string) (grps : list string)
  : list event :=
  ((fun ch => Call awg (CSet (ch +:+ "_offset") (Val (hw_get awg (ch +:+ "_offset")))))
     <$> analog_channels) ++
  ((fun par => Call awg (CSet par (Val (hw_get awg par)))) <$> marker_pars) ++
  [Sleep 100; Call awg CIsAwgReady] ++
  activate_events awg grps ++
  [Call awg (CDCOutput
     (if existsb (fun grp => default false (offset_mode_hardware c awg grp)) grps
      then 1 else 0)%Z)].

(** The AWG file generated for [els], the elements of the sequence. *)
Definition awg_file_of (awg : string) (pw : gmap string packed)
    (grps : list string) (els : list (string * string)) : awg_file :=
  generate_awg_file pw ((fun grp => grp_wfnames grp els) <$> grps)
    (replicate (length els) 1%Z) (replicate (length els) 1%Z)
    (<[Nat.pred (length els) := 1%Z]> (replicate (length els) 0%Z))
    (replicate (length els) 0%Z) (_awg5014_chan_cfg awg).

Definition programming_info (awg : string) (sequence : Sequence) : event :=
  Log INFO ("Programming " +:+ awg +:+ " sequence '" +:+ seq_name sequence +:+
            "' (" +:+ pretty (length (segments sequence)) +:+ " element(s)) " +:+ tab).

(** The driver calls of the upload of [file]. *)
Definition upload_events (awg filename : string) (file : awg_file) : list event :=
  [Call awg (CGenerateAwgFile file); Call awg (CSendAwgFile filename file);
   Call awg (CLoadAwgFile filename)].

(** Relations between the worlds before and after a computation: the
    [active] flags are the same; the set of AWGs with waveforms has not lost
    a member; no condition. *)
Definition same_active (w w' : World) : Prop := awg_active w' = awg_active w.

Definition grows (w w' : World) : Prop := with_wfs w ⊆ with_wfs w'.

Definition any_world (w w' : World) : Prop := True.




End Model.

(** ** A concrete driver and concrete inputs *)

(** Integer samples; a packed waveform is the triple of its arrays and an
    AWG file records what it was generated from. *)
Definition test_driver (running : string -> N -> bool) (info : bool) : Driver := {|
  pvalue := Z;
  sample := Z;
  packed := list Z * list Z * list Z;
  awg_file := gmap string (list Z * list Z * list Z) * list (list string) * list Z;
  chan_cfg := unit;
  zero := 0%Z;
  nonzero := fun x => negb (Z.eqb x 0);
  nonzero_zero := eq_refl;
  hw_get := fun _ _ => 0%Z;
  hw_timeout := fun _ => 5%Z;
  pack_waveform := fun a m1 m2 => (a, m1, m2);
  generate_awg_file := fun pw names nrep _ goto _ _ => (pw, names, goto);
  _awg5014_chan_cfg := fun _ => tt;
  is_running := running;
  start_cost := 1%N;
  poll_cost := 2%N;
  info_enabled := info
|}.

Definition no_hdawg8 (D : Driver) : instrument -> Sequence -> M unit :=
  fun _ _ => ret tt.

(** Three AWGs with waveforms; the slave ["S2"] answers that it is running
    from half a second on. *)
Definition demo_running (awg : string) (t : N) : bool :=
  if String.eqb awg "S2" then N.leb 500 t else true.

Definition demo_driver : Driver := test_driver demo_running false.

Definition demo_pulsar : Pulsar := {|
  instruments := {["M" := ClsAWG5014; "S1" := ClsAWG5014; "S2" := ClsHDAWG8]};
  awgs := {["M"; "S1"; "S2"]};
  master_awg := Some "M"
|}.

Definition demo_world : World := {|
  awg_active := fun _ => true;
  with_wfs := {["M"; "S1"; "S2"]};
  prequeried := false;
  now := 0%N
|}.

(** The same setup with a slave ["S2"] that never answers that it runs. *)
Definition stuck_running (awg : string) (t : N) : bool :=
  negb (String.eqb awg "S2").

Definition stuck_driver : Driver := test_driver stuck_running false.

(** Two AWG5014s and sequences for them. *)
Definition plain_driver : Driver := test_driver (fun _ _ => true) false.

Definition two_awgs : PulsarCfg := {|
  pulsar := {| instruments := {["D1" := ClsAWG5014; "D2" := ClsAWG5014]};
               awgs := {["D1"; "D2"]};
               master_awg := None |};
  offset_mode_hardware := fun _ _ => None
|}.

Definition awg_D1 : instrument := {| name := "D1"; cls := ClsAWG5014 |}.

Definition idle_world : World := {|
  awg_active := fun _ => true;
  with_wfs := ∅;
  prequeried := false;
  now := 0%N
|}.

Definition wf_pulse : gmap string (@waveform plain_driver) := {["ch1" := [1; 2; 0]%Z]}.
Definition wf_other : gmap string (@waveform plain_driver) := {["ch1" := [3; 0; 0]%Z]}.

(** One segment with one element ["A"] on ["D1"]. *)
Definition seq_one : @Sequence plain_driver := {|
  seq_name := "s";
  segments :=
    [("seg1", {| seg_waveforms := {["D1" := {[(0, "A") := {[None := wf_pulse]}]}]} |})];
  awg_sequence := {["D1" := [("A", "seg1")]]}
|}.


(** The element ["A"] played 8001 times. *)
Definition seq_long : @Sequence plain_driver := {|
  seq_name := "long";
  segments :=
    [("seg1", {| seg_waveforms := {["D1" := {[(0, "A") := {[None := wf_pulse]}]}]} |})];
  awg_sequence := {["D1" := replicate (Z.to_nat 8001) ("A", "seg1")]}
|}.

(** ["D1"] has a plain element, ["D2"] an element with a codeword. *)
Definition seq_two : @Sequence plain_driver := {|
  seq_name := "s";
  segments :=
    [("seg1",
      {| seg_waveforms :=
           {["D1" := {[(0, "A") := {[None := wf_pulse]}]};
             "D2" := {[(0, "A") := {[None := wf_pulse; Some 1 := wf_pulse]}]}]} |})];
  awg_sequence := {["D1" := [("A", "seg1")]; "D2" := [("A", "seg1")]]}
|}.

(** Legacy sequences of 8001 elements, with repetition counts 1 and 0. *)
Definition legacy_element (rep : Z) : Element :=
  {| wfname := "A"; repetitions := rep; goto_target := None; trigger_wait := true |}.

Definition legacy_seq (rep : Z) (count : Z) : LegacySequence := {|
  lseq_name := "old";
  elements_ := replicate (Z.to_nat count) (legacy_element rep);
  codewords := [];
  element_count := count;
  element_index := fun _ => 0
|}.


(** ** Waveform names of the HDAWG8 *)

(** The double quote that the format string of [wf_name] puts around the
    name. *)
Definition dquote : string := String (ascii_of_nat 34) EmptyString.

(** [wf_name]: the name of the waveform of element [el] on the channel
    [chid] of the device [devname], joined to that of the marker channel
    [chmid] when [marker_ch] is set. *)
Definition wf_name (el chid chmid devname : string) (marker_ch : bool)
  : string :=
  let wfname := el +:+ "_" +:+ chid in
  let wfname := dquote +:+ devname +:+ "_" +:+ wfname +:+ dquote in
  let wfname := simplify_name wfname in
  if marker_ch then
    let wfnamem := el +:+ "_" +:+ chmid in
    let wfnamem :=
      simplify_name (dquote +:+ devname +:+ "_" +:+ wfnamem +:+ dquote) in
    wfname +:+ " + " +:+ wfnamem
  else wfname.

(** [id[:3] + '_' + id[3:]], the conversion of [ch1m1] to [ch1_m1] in
    [_awg5014_setter] and [_awg5014_getter]. *)
Definition id_raw (id : string) : string :=
  prefix3 id +:+ "_" +:+ String.substring 3 (String.length id - 3) id.

(** Every character of the string is a letter or a digit. *)
Definition all_alnum (s : string) : bool :=
  forallb isalnum (list_ascii_of_string s).

(** The demo AWGs without a master, and a setup in which the registered
    AWG ["G"] does not exist as an instrument. *)
Definition free_pulsar : Pulsar := {|
  instruments := {["M" := ClsAWG5014; "S1" := ClsAWG5014; "S2" := ClsHDAWG8]};
  awgs := {["M"; "S1"; "S2"]};
  master_awg := None
|}.

Definition ghost_pulsar : Pulsar := {|
  instruments := {["M" := ClsAWG5014]};
  awgs := {["M"; "G"]};
  master_awg := None
|}.

Definition ghost_world : World := {|
  awg_active := fun _ => true;
  with_wfs := {["M"; "G"]};
  prequeried := false;
  now := 0%N
|}.

(** The test of the first loop of [AWG5014Pulsar._program_awg] on the
    dictionary of one element:
    [len(wfs[(i,el)]) > 1 or 'no_codeword' not in wfs[(i,el)]]. *)
Definition has_codewords {D : Driver}
    (cws : gmap (option nat) (gmap string waveform)) : bool :=
  Nat.ltb 1 (size cws) || bool_decide (cws !! None = None).

(** [seq_one] without an entry for ["D1"] in [awg_sequence], and with an
    empty one. *)
Definition seq_no_entry : @Sequence plain_driver := {|
  seq_name := "s";
  segments := segments seq_one;
  awg_sequence := ∅
|}.

Definition seq_empty_entry : @Sequence plain_driver := {|
  seq_name := "s";
  segments := segments seq_one;
  awg_sequence := {["D1" := []]}
|}.

Definition awg_D2 : instrument := {| name := "D2"; cls := ClsAWG5014 |}.

(** Some segment of the sequence has waveforms for the AWG:
    [obj.name in wfs] holds in some iteration of the first loop. *)
Definition has_waveforms {D : Driver} (awg : string) (sequence : Sequence)
  : bool :=
  existsb (fun segment : string * Segment =>
             bool_decide (is_Some (seg_waveforms segment.2 !! awg)))
          (segments sequence).

(** The second world differs from the first at most by the time and by
    [awg] having joined the AWGs with waveforms. *)
Definition touches (awg : string) (w w' : World) : Prop :=
  awg_active w' = awg_active w /\ prequeried w' = prequeried w /\
  with_wfs w ⊆ with_wfs w' /\ with_wfs w' ⊆ {[awg]} ∪ with_wfs w.

(** The AWGs that [program_awgs] programs for the argument [awgs]. *)
Definition requested (p : Pulsar) (w : World) (awgs : option (list string))
  : list string :=
  match awgs with
  | None => elements (active_set p w)
  | Some l => l
  end.
(** * Verification *)

(** ** [simplify_name] *)

Lemma simplify_loop_lookup (n : nat) : forall (l : list ascii) (k i : nat),
  foldl (fun (l : list ascii) (i : nat) =>
           match l !! i with
           | Some c => <[i := simplify_char c]> l
           | None => l
           end) l (seq k n) !! i
  = if decide (k <= i < k + n) then simplify_char <$> l !! i else l !! i.
Proof.
  induction n as [|n IH]; intros l k i; simpl.
  - case_decide; [lia | reflexivity].
  - rewrite IH. destruct (decide (i = k)) as [->|Hne].
    + rewrite decide_False by lia. rewrite decide_True by lia.
      destruct (l !! k) as [c|] eqn:Hk; simpl.
      * rewrite list_lookup_insert_eq; [reflexivity|].
        eapply lookup_lt_Some; eassumption.
      * rewrite Hk. reflexivity.
    + assert (Hsame :
        match l !! k with
        | Some c => <[k := simplify_char c]> l
        | None => l
        end !! i = l !! i).
      { destruct (l !! k); [|reflexivity].
        apply list_lookup_insert_ne. congruence. }
      rewrite Hsame.
      destruct (decide (S k <= i < S k + n)), (decide (k <= i < k + S n));
        try reflexivity; lia.
Qed.

Lemma simplify_loop_map (l : list ascii) :
  foldl (fun (l : list ascii) (i : nat) =>
           match l !! i with
           | Some c => <[i := simplify_char c]> l
           | None => l
           end) l (seq 0 (length l))
  = simplify_char <$> l.
Proof.
  apply list_eq. intros i.
  rewrite simplify_loop_lookup, list_lookup_fmap.
  case_decide as Hi; [reflexivity|].
  rewrite lookup_ge_None_2 by lia. reflexivity.
Qed.




Lemma length_list_of_string (s : string) :
  length (list_ascii_of_string s) = String.length s.
Proof. induction s; simpl; congruence. Qed.


Example simplify_name_example :
  simplify_name "seg-1_ch2.b" = "_________._".
Proof. reflexivity. Qed.


(** ** Reasoning about computations *)

Section StopProofs.
Context {D : Driver}.

Lemma bind_ret_eq {A B} (m : M A) (k : A -> M B) w a w1 t1 r w2 t2 :
  m w = (Ret a, w1, t1) -> k a w1 = (r, w2, t2) ->
  bind m k w = (r, w2, t1 ++ t2).
Proof. intros Hm Hk. unfold bind. rewrite Hm, Hk. reflexivity. Qed.

Lemma bind_raise_eq {A B} (m : M A) (k : A -> M B) w e w1 t1 :
  m w = (Raise e, w1, t1) -> bind m k w = (Raise e, w1, t1).
Proof. intros Hm. unfold bind. rewrite Hm. reflexivity. Qed.

Lemma bind_inv {A B} (m : M A) (k : A -> M B) w r w' tr :
  bind m k w = (r, w', tr) ->
  (exists a w1 t1 t2,
      m w = (Ret a, w1, t1) /\ k a w1 = (r, w', t2) /\ tr = t1 ++ t2) \/
  (exists e, m w = (Raise e, w', tr) /\ r = Raise e) \/
  (m w = (OutOfFuel, w', tr) /\ r = OutOfFuel).
Proof.
  unfold bind. destruct (m w) as [[[a|e|] w1] t1].
  - destruct (k a w1) as [[r2 w2] t2] eqn:Hk. intros [= <- <- <-].
    left. eauto 10.
  - intros [= <- <- <-]. right. left. eauto.
  - intros [= <- <- <-]. right. right. auto.
Qed.

Lemma start_awg_eq (p : Pulsar) (awg : string) (w : World) :
  is_Some (instruments p !! awg) ->
  _start_awg p awg w = (Ret tt, tick start_cost w, [Call awg CStart]).
Proof.
  intros [c Hc]. unfold _start_awg, AWG_obj, bind. rewrite Hc. reflexivity.
Qed.

Lemma stop_awg_eq (p : Pulsar) (awg : string) (w : World) :
  is_Some (instruments p !! awg) ->
  _stop_awg p awg w = (Ret tt, w, [Call awg CStop]).
Proof.
  intros [c Hc]. unfold _stop_awg, AWG_obj, bind. rewrite Hc. reflexivity.
Qed.

Lemma is_awg_running_eq (p : Pulsar) (awg : string) (w : World) :
  supported p awg ->
  _is_awg_running p awg w
  = (Ret (is_running awg (now w)), tick poll_cost w,
     [Call awg (CRunning (now w) (is_running awg (now w)))]).
Proof.
  intros [Hc|Hc]; unfold _is_awg_running, AWG_obj, bind; rewrite Hc; reflexivity.
Qed.

(** ** [stop] *)

Lemma for_stop (p : Pulsar) (w : World) (l : list string) :
  (forall awg, awg ∈ l -> is_Some (instruments p !! awg)) ->
  for_ l (_stop_awg p) w = (Ret tt, w, (fun awg => Call awg CStop) <$> l).
Proof.
  induction l as [|a l IH]; intros Hl; [reflexivity|].
  simpl. erewrite bind_ret_eq;
    [ | apply stop_awg_eq, Hl; left
      | apply IH; intros b Hb; apply Hl; right; exact Hb ].
  reflexivity.
Qed.

(** C6: [stop] calls the stop operation of a device once for every AWG
    that is both active and in the set of AWGs with waveforms, and performs
    no other driver call. *)
Theorem stop_exactly_used (p : Pulsar) (w : World) :
  (forall awg, awg ∈ awgs p -> is_Some (instruments p !! awg)) ->
  exists tr,
    stop p w = (Ret tt, w, tr) /\ NoDup tr /\
    forall e, e ∈ tr <->
      exists awg, e = Call awg CStop /\
        (awg ∈ awgs p /\ awg_active w awg = true) /\ awg ∈ with_wfs w.
Proof.
  intros Hreg.
  exists ((fun awg => Call awg CStop) <$> elements (active_set p w ∩ with_wfs w)).
  split; [|split].
  - unfold stop, bind, awgs_with_waveforms, active_awgs. simpl.
    rewrite for_stop; [reflexivity|].
    intros a Ha. apply Hreg. apply elem_of_elements in Ha.
    apply elem_of_intersection in Ha as [Ha _].
    apply elem_of_filter in Ha as [_ Ha]. exact Ha.
  - apply NoDup_fmap_2; [|apply NoDup_elements].
    intros a b [= ->]. reflexivity.
  - intros e. rewrite list_elem_of_fmap. split.
    + intros (a & -> & Ha). exists a. split; [reflexivity|].
      apply elem_of_elements, elem_of_intersection in Ha as [Ha1 Ha2].
      apply elem_of_filter in Ha1 as [Hact Hin]. auto.
    + intros (a & -> & [Hin Hact] & Hwf). exists a. split; [reflexivity|].
      apply elem_of_elements, elem_of_intersection. split; [|exact Hwf].
      apply elem_of_filter. auto.
Qed.

End StopProofs.
Section StartProofs.
Context {D : Driver}.

(** ** [start] *)

Lemma wait_running_spec (p : Pulsar) (awg : string) (tstart : N) :
  supported p awg ->
  forall (fuel : nat) (w : World),
    (tstart <= now w)%N ->
    (tstart + 10000 < now w + 100 * N.of_nat fuel)%N ->
    exists good w' tr,
      wait_running (S fuel) p awg tstart w = (Ret good, w', tr) /\
      (now w <= now w')%N /\
      Forall (poll_event (eq awg) tstart) tr /\
      (good = true -> exists t, Call awg (CRunning t true) ∈ tr) /\
      ((forall t, (tstart <= t <= tstart + 10000)%N -> is_running awg t = false) ->
       good = false).
Proof.
  intros Hs. induction fuel as [|fuel IH]; intros w Hle Hfuel.
  - cbn [wait_running]. unfold bind, time_time.
    destruct (N.ltb_spec (tstart + 10000) (now w)) as [Hlt|Hge]; [|lia].
    exists false, w, []. simpl. repeat split; auto; try lia; try discriminate.
  - cbn [wait_running]. unfold bind at 1. unfold time_time at 1.
    destruct (N.ltb_spec (tstart + 10000) (now w)) as [Hlt|Hge].
    + exists false, w, []. simpl. repeat split; auto; try lia; try discriminate.
    + unfold bind at 1. rewrite (is_awg_running_eq p awg w Hs).
      destruct (is_running awg (now w)) eqn:Hrun.
      * exists true, (tick poll_cost w), [Call awg (CRunning (now w) true)].
        simpl. repeat split; try lia.
        -- constructor; [|constructor]. simpl. repeat split; auto; lia.
        -- intros _. exists (now w). left.
        -- intros Hnever. rewrite Hnever in Hrun by lia. discriminate.
      * destruct (IH (tick 100 (tick poll_cost w))) as (good & w' & tr & Heq & Hnow & Hall & Hgood & Hnever).
        { simpl. lia. }
        { simpl. lia. }
        exists good, w', (Call awg (CRunning (now w) false) :: Sleep 100 :: tr).
        split; [|split; [|split; [|split]]].
        -- erewrite bind_ret_eq; [ | reflexivity | exact Heq]. reflexivity.
        -- simpl in Hnow. lia.
        -- constructor; [|constructor]; auto.
           ++ simpl. repeat split; auto; lia.
           ++ simpl. reflexivity.
        -- intros Hg. destruct (Hgood Hg) as [t Ht]. exists t.
           right. right. exact Ht.
        -- exact Hnever.
Qed.

Lemma start_slaves_spec (p : Pulsar) (master : string) (l : list string) :
  (forall awg, awg ∈ l -> awg <> master -> is_Some (instruments p !! awg)) ->
  forall w : World,
  exists w',
    for_ l (fun awg =>
      if decide (awg <> master) then _start_awg p awg else ret tt) w
    = (Ret tt, w', (fun awg => Call awg CStart) <$> filter (fun awg => awg <> master) l) /\
    now w' = (now w + start_cost * N.of_nat (length (filter (fun awg => awg <> master) l)))%N /\
    awg_active w' = awg_active w /\ with_wfs w' = with_wfs w.
Proof.
  induction l as [|a l IH]; intros Hl w.
  - exists w. simpl. repeat split; auto. lia.
  - cbn [for_]. destruct (decide (a <> master)) as [Hne|Heq].
    + destruct (IH (fun b Hb => Hl b (list_elem_of_further _ _ _ Hb))
                   (tick start_cost w)) as (w' & Hrun & Hnow & Hact & Hwf).
      exists w'. rewrite filter_cons_True by exact Hne. split; [|split; [|split]].
      * erewrite bind_ret_eq;
          [ | apply start_awg_eq, Hl; [left | exact Hne] | exact Hrun ].
        reflexivity.
      * rewrite Hnow. simpl. lia.
      * rewrite Hact. reflexivity.
      * rewrite Hwf. reflexivity.
    + destruct (IH (fun b Hb => Hl b (list_elem_of_further _ _ _ Hb)) w)
        as (w' & Hrun & Hnow & Hact & Hwf).
      exists w'. rewrite filter_cons_False by exact Heq. split; [|auto].
      erewrite bind_ret_eq; [ | reflexivity | exact Hrun ]. reflexivity.
Qed.

Lemma await_slaves_spec (p : Pulsar) (master : string) (fuel : nat) (tstart : N)
    (l : list string) :
  101 <= fuel ->
  (forall awg, awg ∈ l -> awg <> master -> supported p awg) ->
  forall w : World,
  (tstart <= now w)%N ->
  exists r w' tr,
    for_ l (fun awg =>
      if decide (awg = master) then ret tt
      else
        bind (wait_running (S fuel) p awg tstart) (fun good =>
          if good then ret tt
          else raise (timeout_error awg))) w
    = (r, w', tr) /\
    r <> OutOfFuel /\
    Forall (poll_event (fun awg => awg ∈ l /\ awg <> master) tstart) tr /\
    (r = Ret tt ->
     forall s, s ∈ l -> s <> master -> exists t, Call s (CRunning t true) ∈ tr) /\
    (forall e, r = Raise e -> exists s, s ∈ l /\ s <> master /\ e = timeout_error s) /\
    ((exists s, s ∈ l /\ s <> master /\
        forall t, (tstart <= t <= tstart + 10000)%N -> is_running s t = false) ->
     exists e, r = Raise e).
Proof.
  intros Hfuel. induction l as [|a l IH]; intros Hl w Hle.
  - exists (Ret tt), w, []. simpl. repeat split; auto; try discriminate.
    + intros _ s Hs. inversion Hs.
    + intros (s & Hs & _). inversion Hs.
  - cbn [for_].
    assert (Hl' : forall awg, awg ∈ l -> awg <> master -> supported p awg).
    { intros b Hb. apply Hl. right. exact Hb. }
    assert (Hmono : forall tr,
      Forall (poll_event (fun awg => awg ∈ l /\ awg <> master) tstart) tr ->
      Forall (poll_event (fun awg => awg ∈ a :: l /\ awg <> master) tstart) tr).
    { intros tr Htr. eapply Forall_impl; [exact Htr|].
      intros [b [] | |]; simpl; auto.
      intros ([Hb Hne] & Ht). split; [|exact Ht]. split; [right|]; assumption. }
    destruct (decide (a = master)) as [Heq|Hne].
    + destruct (IH Hl' w Hle) as (r & w' & tr & Hrun & Hfin & Hall & Hok & Herr & Hnever).
      exists r, w', tr. split; [|split; [|split; [|split; [|split]]]]; auto.
      * erewrite bind_ret_eq; [ | reflexivity | exact Hrun ]. reflexivity.
      * intros Hr s Hs Hsm. apply Hok; auto.
        apply elem_of_cons in Hs as [->|Hs]; [contradiction|exact Hs].
      * intros e He. destruct (Herr e He) as (s & Hs & Hsm & ->).
        exists s. split; [right; exact Hs|auto].
      * intros (s & Hs & Hsm & Hs'). apply Hnever. exists s.
        apply elem_of_cons in Hs as [->|Hs]; [contradiction|auto].
    + destruct (wait_running_spec p a tstart (Hl a ltac:(left) Hne) fuel w Hle)
        as (good & w1 & tr1 & Hwait & Hnow1 & Hall1 & Hgood & Hbad); [lia|].
      assert (Hall1' :
        Forall (poll_event (fun awg => awg ∈ a :: l /\ awg <> master) tstart) tr1).
      { eapply Forall_impl; [exact Hall1|].
        intros [b [] | |]; simpl; auto.
        intros (<- & Ht). split; [|exact Ht]. split; [left|exact Hne]. }
      destruct good.
      * destruct (IH Hl' w1 ltac:(lia))
          as (r & w' & tr & Hrun & Hfin & Hall & Hok & Herr & Hnever).
        exists r, w', (tr1 ++ tr).
        split; [|split; [|split; [|split; [|split]]]]; auto.
        -- erewrite bind_ret_eq; [ | | exact Hrun ].
           ++ reflexivity.
           ++ erewrite bind_ret_eq; [ | exact Hwait | reflexivity ].
              rewrite app_nil_r. reflexivity.
        -- apply Forall_app. split; [exact Hall1'|apply Hmono, Hall].
        -- intros Hr s Hs Hsm. apply elem_of_cons in Hs as [->|Hs].
           ++ destruct (Hgood eq_refl) as [t Ht]. exists t.
              apply elem_of_app. left. exact Ht.
           ++ destruct (Hok Hr s Hs Hsm) as [t Ht]. exists t.
              apply elem_of_app. right. exact Ht.
        -- intros e He. destruct (Herr e He) as (s & Hs & Hsm & ->).
           exists s. split; [right; exact Hs|auto].
        -- intros (s & Hs & Hsm & Hs'). apply elem_of_cons in Hs as [->|Hs].
           ++ specialize (Hbad Hs'). discriminate.
           ++ apply Hnever. exists s. auto.
      * exists (Raise (timeout_error a)), w1, tr1.
        split; [|split; [|split; [|split; [|split]]]].
        -- apply bind_raise_eq.
           erewrite bind_ret_eq; [ | exact Hwait | reflexivity ].
           rewrite app_nil_r. reflexivity.
        -- intros [=].
        -- exact Hall1'.
        -- intros [=].
        -- intros e [= <-]. exists a. split; [left|auto].
        -- intros _. eauto.
Qed.

(** C1, as the code has it: with a master AWG configured, [start] first
    starts every slave (the active AWGs with waveforms other than the
    master), then polls the slaves inside a ten-second window with sleeps of
    0.1 s, and starts the master last, after every slave has answered that it
    is running; when a slave never answers so inside the window, [start]
    raises the built-in [Exception] with the message of [timeout_error], and
    the master is not started.  The loop ends within the given fuel. *)
Theorem start_master_after_slaves (p : Pulsar) (master : string) (fuel : nat)
    (w : World) :
  master_awg p = Some master ->
  (forall awg, awg ∈ awgs p \/ awg = master -> supported p awg) ->
  102 <= fuel ->
  let slaves :=
    filter (fun awg => awg <> master) (elements (active_set p w ∩ with_wfs w)) in
  let tstart := (now w + start_cost * N.of_nat (length slaves))%N in
  exists r w' polls,
    start fuel p w
    = (r, w',
       ((fun awg => Call awg CStart) <$> slaves) ++ polls ++
       match r with Ret _ => [Call master CStart] | _ => [] end) /\
    Forall (poll_event (fun awg => awg ∈ slaves) tstart) polls /\
    (Call master CStart ∉ ((fun awg => Call awg CStart) <$> slaves) ++ polls) /\
    (r = Ret tt \/ exists s, s ∈ slaves /\ r = Raise (timeout_error s)) /\
    (r = Ret tt ->
     forall s, s ∈ slaves -> exists t, Call s (CRunning t true) ∈ polls) /\
    ((exists s, s ∈ slaves /\
        forall t, (tstart <= t <= tstart + 10000)%N -> is_running s t = false) ->
     exists s, s ∈ slaves /\ r = Raise (timeout_error s)).
Proof.
  intros Hmaster Hsup Hfuel slaves tstart.
  set (used := elements (active_set p w ∩ with_wfs w)) in *.
  assert (Hused : forall awg, awg ∈ used -> supported p awg).
  { intros a Ha. apply Hsup. left.
    apply elem_of_elements, elem_of_intersection in Ha as [Ha _].
    apply elem_of_filter in Ha as [_ Ha]. exact Ha. }
  assert (Hsome : forall awg, supported p awg -> is_Some (instruments p !! awg)).
  { intros a [Ha|Ha]; rewrite Ha; eauto. }
  destruct (start_slaves_spec p master used
              (fun a Ha _ => Hsome a (Hused a Ha)) w)
    as (w1 & Hphase1 & Hnow1 & _ & _).
  destruct fuel as [|fuel]; [lia|].
  destruct (await_slaves_spec p master fuel tstart used ltac:(lia)
              (fun a Ha _ => Hused a Ha) w1 ltac:(unfold tstart, slaves; lia))
    as (r2 & w2 & polls & Hphase2 & Hfin & Hall & Hok & Herr & Hnever).
  assert (Hslave : forall a, a ∈ used /\ a <> master <-> a ∈ slaves).
  { intros a. unfold slaves. rewrite list_elem_of_filter. tauto. }
  assert (Hall' : Forall (poll_event (fun awg => awg ∈ slaves) tstart) polls).
  { eapply Forall_impl; [exact Hall|]. intros [b [] | |]; simpl; auto.
    intros (Hb & Ht). split; [apply Hslave, Hb|exact Ht]. }
  assert (Hnot : Call master CStart ∉ (((fun awg => Call awg CStart) <$> slaves) ++ polls)).
  { intros Hin. apply elem_of_app in Hin as [Hin|Hin].
    - apply list_elem_of_fmap in Hin as (a & [= <-] & Ha).
      apply Hslave in Ha as [_ Ha]. contradiction.
    - rewrite Forall_forall in Hall'. apply Hall' in Hin. exact Hin. }
  assert (Hrun : forall r w' tr3,
    (match r2 with
     | Ret _ => _start_awg p master w2
     | Raise e => (Raise e, w2, [])
     | OutOfFuel => (OutOfFuel, w2, [])
     end) = (r, w', tr3) ->
    start (S fuel) p w
    = (r, w', ((fun awg => Call awg CStart) <$> slaves) ++ polls ++ tr3)).
  { intros r w' tr3 Hlast. unfold start.
    erewrite bind_ret_eq; [ | reflexivity | ]; [reflexivity|].
    erewrite bind_ret_eq; [ | reflexivity | ]; [reflexivity|].
    rewrite Hmaster. fold used.
    erewrite bind_ret_eq; [ | exact Hphase1 | ]; [reflexivity|].
    erewrite bind_ret_eq; [ | reflexivity | ]; [reflexivity|].
    simpl now. replace (now w1) with tstart by (unfold tstart, slaves; lia).
    destruct r2 as [[]|e|].
    - erewrite bind_ret_eq; [ | exact Hphase2 | exact Hlast ]. reflexivity.
    - injection Hlast as <- <- <-.
      rewrite app_nil_r. apply bind_raise_eq. exact Hphase2.
    - contradiction. }
  destruct r2 as [[]|e|].
  - exists (Ret tt), (tick start_cost w2), polls.
    split; [|split; [|split; [|split; [|split]]]]; auto.
    + apply Hrun. apply start_awg_eq, Hsome, Hsup. right. reflexivity.
    + intros _ s Hs. apply Hslave in Hs as [Hs1 Hs2]. apply Hok; auto.
    + intros (s & Hs & Hs'). apply Hslave in Hs as [Hs1 Hs2].
      destruct Hnever as [e He]; [eauto|discriminate].
  - destruct (Herr e eq_refl) as (s & Hs1 & Hs2 & ->).
    exists (Raise (timeout_error s)), w2, polls.
    split; [|split; [|split; [|split; [|split]]]]; auto.
    + right. exists s. split; [apply Hslave; auto|reflexivity].
    + intros [=].
    + intros _. exists s. split; [apply Hslave; auto|reflexivity].
  - contradiction.
Qed.
End StartProofs.
Section Loops.
Context {D : Driver}.

(** ** Loops *)

(** A loop whose body returns and keeps an invariant [I] of the elements
    done, the variables carried, the world and the events emitted so far. *)
Lemma for_acc_success {A B} (I : list A -> B -> World -> list event -> Prop)
    (l : list A) (body : B -> A -> M B) :
  (forall pre x post acc w tr, l = pre ++ x :: post -> I pre acc w tr ->
     exists acc' w' tr',
       body acc x w = (Ret acc', w', tr') /\ I (pre ++ [x]) acc' w' (tr ++ tr')) ->
  forall acc w, I [] acc w [] ->
  exists acc' w' tr, for_acc l acc body w = (Ret acc', w', tr) /\ I l acc' w' tr.
Proof.
  intros Hbody.
  assert (Hgen : forall suf pre acc w tr0, l = pre ++ suf -> I pre acc w tr0 ->
    exists acc' w' tr,
      for_acc suf acc body w = (Ret acc', w', tr) /\ I l acc' w' (tr0 ++ tr)).
  { induction suf as [|x suf IH]; intros pre acc w tr0 Hl HI.
    - exists acc, w, []. rewrite app_nil_r in *. subst l. split; [reflexivity|exact HI].
    - destruct (Hbody pre x suf acc w tr0 Hl HI) as (acc1 & w1 & tr1 & Hx & HI1).
      destruct (IH (pre ++ [x]) acc1 w1 (tr0 ++ tr1)) as (acc2 & w2 & tr2 & Hrest & HI2).
      { rewrite <- app_assoc. exact Hl. }
      { exact HI1. }
      exists acc2, w2, (tr1 ++ tr2). split.
      + cbn [for_acc]. erewrite bind_ret_eq; [ | exact Hx | exact Hrest ]. reflexivity.
      + rewrite app_assoc. exact HI2. }
  intros acc w HI. apply (Hgen l [] acc w []); [reflexivity|exact HI].
Qed.

Lemma for_emit {A} (l : list A) (f : A -> event) (w : World) :
  for_ l (fun x => emit (f x)) w = (Ret tt, w, f <$> l).
Proof.
  induction l as [|x l IH]; [reflexivity|].
  cbn [for_]. erewrite bind_ret_eq; [ | reflexivity | exact IH ]. reflexivity.
Qed.

Section Always.
Context (R : World -> World -> Prop) (Ev : event -> Prop) `{!PreOrder R}.

Local Lemma R_refl : forall w, R w w.
Proof. intros w. reflexivity. Qed.

Local Lemma R_trans : forall w1 w2 w3, R w1 w2 -> R w2 w3 -> R w1 w3.
Proof. intros w1 w2 w3 H1 H2. etransitivity; eassumption. Qed.

Local Hint Resolve R_refl R_trans : core.

Lemma always_ret {A} (Q : A -> Prop) (a : A) : Q a -> always R Ev Q (ret a).
Proof. intros Ha w r w' tr [= <- <- <-]. repeat split; auto. congruence. Qed.

Lemma always_raise {A} (Q : A -> Prop) (e : exn) : always R Ev Q (raise e).
Proof. intros w r w' tr [= <- <- <-]. repeat split; auto. discriminate. Qed.

Lemma always_emit (Q : unit -> Prop) (e : event) :
  Ev e -> Q tt -> always R Ev Q (emit e).
Proof.
  intros He Hq w r w' tr [= <- <- <-]. repeat split; auto.
  intros [] _. exact Hq.
Qed.

Lemma always_bind {A B} (Q : A -> Prop) (Q' : B -> Prop) (m : M A)
    (k : A -> M B) :
  always R Ev Q m -> (forall a, Q a -> always R Ev Q' (k a)) ->
  always R Ev Q' (bind m k).
Proof.
  intros Hm Hk w r w' tr Hrun.
  apply bind_inv in Hrun
    as [(a & w1 & t1 & t2 & H1 & H2 & ->) | [(e & H1 & ->) | (H1 & ->)]].
  - destruct (Hm _ _ _ _ H1) as (HR1 & HE1 & HQ1).
    destruct (Hk a (HQ1 a eq_refl) _ _ _ _ H2) as (HR2 & HE2 & HQ2).
    split; [eauto|]. split; [apply Forall_app; auto|exact HQ2].
  - destruct (Hm _ _ _ _ H1) as (HR1 & HE1 & _).
    repeat split; auto. discriminate.
  - destruct (Hm _ _ _ _ H1) as (HR1 & HE1 & _).
    repeat split; auto. discriminate.
Qed.

Lemma always_weaken {A} (Q Q' : A -> Prop) (m : M A) :
  always R Ev Q m -> (forall a, Q a -> Q' a) -> always R Ev Q' m.
Proof.
  intros Hm HQ w r w' tr Hrun. destruct (Hm _ _ _ _ Hrun) as (H1 & H2 & H3).
  repeat split; auto.
Qed.

Lemma always_for {A} (l : list A) (body : A -> M unit) :
  (forall x, x ∈ l -> always R Ev (fun _ => True) (body x)) ->
  always R Ev (fun _ => True) (for_ l body).
Proof.
  induction l as [|x l IH]; intros Hbody; cbn [for_].
  - apply always_ret. exact I.
  - eapply always_bind; [apply Hbody; left|].
    intros _ _. apply IH. intros y Hy. apply Hbody. right. exact Hy.
Qed.

Lemma always_for_acc {A B} (Inv : B -> Prop) (l : list A) (body : B -> A -> M B) :
  (forall acc x, x ∈ l -> Inv acc -> always R Ev Inv (body acc x)) ->
  forall acc, Inv acc -> always R Ev Inv (for_acc l acc body).
Proof.
  induction l as [|x l IH]; intros Hbody acc Hacc; cbn [for_acc].
  - apply always_ret. exact Hacc.
  - eapply always_bind; [apply Hbody; [left|exact Hacc]|].
    intros acc' Hacc'. apply IH; [|exact Hacc'].
    intros a y Hy. apply Hbody. right. exact Hy.
Qed.

Lemma always_getitem {V} (d : gmap string V) (key : string) :
  always R Ev (fun v => d !! key = Some v) (getitem d key).
Proof.
  unfold getitem. destruct (d !! key) eqn:Hd;
    [apply always_ret; reflexivity|apply always_raise].
Qed.

Lemma always_AWG_obj (p : Pulsar) (awg : string) :
  always R Ev (fun obj => name obj = awg) (AWG_obj p awg).
Proof.
  unfold AWG_obj. destruct (instruments p !! awg);
    [apply always_ret; reflexivity|apply always_raise].
Qed.

Lemma always_time_time : always R Ev (fun _ => True) time_time.
Proof. intros w r w' tr [= <- <- <-]. repeat split; auto. Qed.
End Always.

End Loops.
Section Padding.
Context {D : Driver}.

(** ** Channel groups *)

Lemma prefix3_idem (s : string) : prefix3 (prefix3 s) = prefix3 s.
Proof. destruct s as [|a [|b [|c [|d s]]]]; reflexivity. Qed.

Lemma elem_of_sorted_list (g : string) (s : gset string) :
  g ∈ sorted_list s <-> g ∈ s.
Proof.
  unfold sorted_list. rewrite merge_sort_Permutation. apply elem_of_elements.
Qed.

Lemma elem_of_sorted_items {V} (d : gmap (nat * string) V) (x : (nat * string) * V) :
  x ∈ sorted_items d <-> d !! x.1 = Some x.2.
Proof.
  unfold sorted_items. rewrite merge_sort_Permutation.
  destruct x as [k v]. apply elem_of_map_to_list.
Qed.

(** Membership in a set grown by a loop. *)
Lemma foldl_grow {A} (F : gset string -> A -> gset string)
    (P : A -> string -> Prop) :
  (forall S x g, g ∈ F S x <-> g ∈ S \/ P x g) ->
  forall l S g, g ∈ foldl F S l <-> g ∈ S \/ exists x, x ∈ l /\ P x g.
Proof.
  intros HF. induction l as [|x l IH]; intros S g; simpl.
  - split; [auto|]. intros [H|(x & Hx & _)]; [exact H|inversion Hx].
  - rewrite IH, HF. split.
    + intros [[H|H]|(y & Hy & HP)]; eauto.
      * right. exists x. split; [left|exact H].
      * right. exists y. split; [right; exact Hy|exact HP].
    + intros [H|(y & Hy & HP)]; [auto|].
      apply elem_of_cons in Hy as [->|Hy]; eauto.
Qed.

Lemma elem_of_used_grps (seg_wfs : list (gmap (nat * string) (gmap string waveform)))
    (g : string) :
  g ∈ used_grps seg_wfs <->
  exists el_wfs key cid_wfs cid wf,
    el_wfs ∈ seg_wfs /\ el_wfs !! key = Some cid_wfs /\
    cid_wfs !! cid = Some wf /\ any wf = true /\ g = prefix3 cid.
Proof.
  unfold used_grps. rewrite elem_of_sorted_list.
  rewrite (foldl_grow _ (fun el_wfs g =>
    exists key cid_wfs cid wf,
      el_wfs !! key = Some cid_wfs /\ cid_wfs !! cid = Some wf /\
      any wf = true /\ g = prefix3 cid)).
  - split.
    + intros [H|(el_wfs & Hin & key & cid_wfs & cid & wf & H)]; [set_solver|].
      exists el_wfs, key, cid_wfs, cid, wf. tauto.
    + intros (el_wfs & key & cid_wfs & cid & wf & Hin & H). right.
      exists el_wfs. split; [exact Hin|]. exists key, cid_wfs, cid, wf. exact H.
  - intros S el_wfs g'.
    rewrite (foldl_grow _ (fun (cid_wfs : gmap string waveform) g =>
      exists cid wf, cid_wfs !! cid = Some wf /\ any wf = true /\ g = prefix3 cid)).
    + split.
      * intros [H|(cid_wfs & Hin & cid & wf & H)]; [auto|]. right.
        apply list_elem_of_fmap in Hin as ([key v] & -> & Hin).
        apply elem_of_map_to_list in Hin. exists key, v, cid, wf. tauto.
      * intros [H|(key & cid_wfs & cid & wf & Hk & H)]; [auto|]. right.
        exists cid_wfs. split; [|eauto].
        apply list_elem_of_fmap. exists (key, cid_wfs). split; [reflexivity|].
        apply elem_of_map_to_list. exact Hk.
    + intros S' cid_wfs g''.
      rewrite (foldl_grow _ (fun (entry : string * waveform) g =>
        any entry.2 = true /\ g = prefix3 entry.1)).
      * split.
        -- intros [H|([cid wf] & Hin & Hany & ->)]; [auto|]. right.
           apply elem_of_map_to_list in Hin. exists cid, wf. auto.
        -- intros [H|(cid & wf & Hc & Hany & ->)]; [auto|]. right.
           exists (cid, wf). split; [apply elem_of_map_to_list; exact Hc|auto].
      * intros S'' [cid wf] g3. simpl. destruct (any wf).
        -- rewrite elem_of_union, elem_of_singleton. intuition.
        -- split; [auto|]. intros [H|[H _]]; [exact H|discriminate].
Qed.

Lemma used_grps_prefix (seg_wfs : list (gmap (nat * string) (gmap string waveform)))
    (g : string) :
  g ∈ used_grps seg_wfs -> prefix3 g = g.
Proof.
  rewrite elem_of_used_grps. intros (? & ? & ? & cid & ? & _ & _ & _ & _ & ->).
  apply prefix3_idem.
Qed.


(** ** Padding *)

Lemma maxlen_fold (l : list waveform) : forall m : extlen,
  match foldl (fun maxlen (wf : waveform) => max_len maxlen (length wf)) m l with
  | NegInf => m = NegInf /\ l = []
  | Len n =>
      (forall wf, wf ∈ l -> length wf <= n) /\
      match m with
      | NegInf => exists wf, wf ∈ l /\ length wf = n
      | Len k => k <= n /\ (k = n \/ exists wf, wf ∈ l /\ length wf = n)
      end
  end.
Proof.
  induction l as [|wf l IH]; intros m; simpl.
  - destruct m as [|k]; [auto|]. split; [|lia]. intros wf Hwf. inversion Hwf.
  - specialize (IH (max_len m (length wf))).
    destruct (foldl _ (max_len m (length wf)) l) as [|n].
    + destruct IH as [Hm _]. destruct m; discriminate.
    + destruct IH as [Hall Hmax]. destruct m as [|k]; simpl in Hmax.
      * destruct Hmax as [Hle Hmax]. split.
        -- intros wf' Hwf'. apply elem_of_cons in Hwf' as [->|Hwf']; auto.
        -- destruct Hmax as [<-|(wf' & Hin & Hlen)].
           ++ exists wf. split; [left|reflexivity].
           ++ exists wf'. split; [right; exact Hin|exact Hlen].
      * destruct Hmax as [Hle Hmax]. split; [|split].
        -- intros wf' Hwf'. apply elem_of_cons in Hwf' as [->|Hwf']; auto. lia.
        -- lia.
        -- destruct Hmax as [Heq|(wf' & Hin & Hlen)].
           ++ destruct (Nat.max_spec k (length wf)) as [[_ Hm]|[_ Hm]].
              ** right. exists wf. split; [left|lia].
              ** left. lia.
           ++ right. exists wf'. split; [right; exact Hin|exact Hlen].
Qed.

Lemma elem_of_values {V} (d : gmap string V) (v : V) :
  v ∈ (map_to_list d).*2 <-> exists cid, d !! cid = Some v.
Proof.
  rewrite list_elem_of_fmap. split.
  - intros ([cid v'] & -> & Hin). exists cid. apply elem_of_map_to_list. exact Hin.
  - intros (cid & Hc). exists (cid, v). split; [reflexivity|].
    apply elem_of_map_to_list. exact Hc.
Qed.

(** [maxlen] is the greatest length among the waveforms of the element. *)
Lemma maxlen_of_Len (cid_wfs : gmap string waveform) (n : nat) :
  maxlen_of cid_wfs = Len n ->
  (forall cid wf, cid_wfs !! cid = Some wf -> length wf <= n) /\
  (exists cid wf, cid_wfs !! cid = Some wf /\ length wf = n).
Proof.
  unfold maxlen_of. intros Hm.
  pose proof (maxlen_fold (map_to_list cid_wfs).*2 NegInf) as H.
  rewrite Hm in H. destruct H as [Hall (wf & Hin & Hlen)]. split.
  - intros cid wf' Hc. apply Hall. apply elem_of_values. eauto.
  - apply elem_of_values in Hin as [cid Hc]. eauto.
Qed.

Lemma maxlen_of_nonempty (cid_wfs : gmap string waveform) (cid : string)
    (wf : waveform) :
  cid_wfs !! cid = Some wf ->
  exists n, maxlen_of cid_wfs = Len n /\ length wf <= n.
Proof.
  intros Hc. unfold maxlen_of.
  pose proof (maxlen_fold (map_to_list cid_wfs).*2 NegInf) as H.
  assert (Hin : wf ∈ (map_to_list cid_wfs).*2) by (apply elem_of_values; eauto).
  destruct (foldl _ NegInf _) as [|n].
  - destruct H as [_ Hnil]. rewrite Hnil in Hin. inversion Hin.
  - exists n. split; [reflexivity|]. apply H. exact Hin.
Qed.

Lemma padded_length (cid_wfs : gmap string waveform) (n : nat) (cid : string) :
  (forall wf, cid_wfs !! cid = Some wf -> length wf <= n) ->
  length (padded cid_wfs n cid) = n.
Proof.
  intros Hle. unfold padded, np_pad. rewrite length_app, length_replicate.
  destruct (cid_wfs !! cid) as [wf|]; simpl.
  - specialize (Hle wf eq_refl). lia.
  - rewrite length_replicate. lia.
Qed.

Lemma pad_channel_eq (obj : instrument) (el : string)
    (cid_wfs : gmap string waveform) (n : nat) (grp_wfs : gmap string waveform)
    (cid : string) (w : World) :
  pad_channel obj el cid_wfs (Len n) grp_wfs cid w
  = match padded cid_wfs n cid with
    | [] => (Raise IndexError, w, [])
    | first :: _ =>
        (Ret (<[cid := padded cid_wfs n cid]> grp_wfs), w,
         if nonzero first then [Log WARNING (nonzero_warning el (name obj))]
         else [])
    end.
Proof.
  unfold pad_channel. fold (padded cid_wfs n cid).
  destruct (padded cid_wfs n cid) as [|first rest]; [reflexivity|].
  destruct (nonzero first); reflexivity.
Qed.


Lemma pad_loop_success (obj : instrument) (el : string)
    (cid_wfs : gmap string waveform) (n : nat) (ids : list string) :
  (forall cid, cid ∈ ids -> padded cid_wfs n cid <> []) ->
  forall acc w,
    for_acc ids acc (pad_channel obj el cid_wfs (Len n)) w
    = (Ret (pad_result cid_wfs n acc ids), w, pad_warnings obj el cid_wfs n ids).
Proof.
  induction ids as [|cid ids IH]; intros Hne acc w; [reflexivity|].
  cbn [for_acc]. erewrite bind_ret_eq; [reflexivity | | apply IH].
  - rewrite pad_channel_eq. unfold pad_warnings. cbn [flat_map].
    destruct (padded cid_wfs n cid) as [|first rest] eqn:Hp.
    + exfalso. apply (Hne cid); [left|exact Hp].
    + reflexivity.
  - intros c Hc. apply Hne. right. exact Hc.
Qed.


Lemma pad_result_notin (cid_wfs : gmap string waveform) (n : nat)
    (ids : list string) (cid : string) :
  cid ∉ ids -> forall acc, pad_result cid_wfs n acc ids !! cid = acc !! cid.
Proof.
  unfold pad_result. induction ids as [|c ids IH]; intros Hnot acc; [reflexivity|].
  simpl. rewrite IH.
  - apply lookup_insert_ne. intros ->. apply Hnot. left.
  - intros Hin. apply Hnot. right. exact Hin.
Qed.

Lemma pad_result_in (cid_wfs : gmap string waveform) (n : nat)
    (ids : list string) (cid : string) :
  cid ∈ ids -> forall acc,
  pad_result cid_wfs n acc ids !! cid = Some (padded cid_wfs n cid).
Proof.
  induction ids as [|c ids IH]; intros Hin acc; [inversion Hin|].
  destruct (decide (cid ∈ ids)) as [Hin'|Hnot].
  - apply (IH Hin').
  - apply elem_of_cons in Hin as [->|Hin]; [|contradiction].
    change (pad_result cid_wfs n (<[c := padded cid_wfs n c]> acc) ids !! c
            = Some (padded cid_wfs n c)).
    rewrite pad_result_notin by exact Hnot. apply lookup_insert_eq.
Qed.



(** ** Waveform keys *)


Lemma getitem_inv {V} (d : gmap string V) (key : string) w v w' tr :
  getitem d key w = (Ret v, w', tr) -> d !! key = Some v /\ w' = w /\ tr = [].
Proof.
  unfold getitem. destruct (d !! key); intros [= <- <- <-]; auto.
Qed.

Lemma getitem_eq {V} (d : gmap string V) (key : string) (v : V) (w : World) :
  d !! key = Some v -> getitem d key w = (Ret v, w, []).
Proof. intros H. unfold getitem. rewrite H. reflexivity. Qed.







End Padding.
Section Collecting.
Context {D : Driver}.

(** ** Collecting the waveforms of an AWG *)

Lemma collect_element_eq (el_wfs : gmap (nat * string) (gmap string waveform))
    (key : nat * string) (cid_wfs : gmap string waveform) (w : World) :
  collect_element el_wfs (key, {[None := cid_wfs]}) w
  = (Ret (<[key := cid_wfs]> el_wfs), w, []).
Proof.
  unfold collect_element. cbn [fst snd].
  rewrite map_size_singleton, lookup_singleton_eq.
  rewrite bool_decide_eq_false_2 by discriminate. reflexivity.
Qed.

Lemma singleton_None_inj (c1 c2 : gmap string waveform) :
  ({[None := c1]} : gmap (option nat) (gmap string waveform)) = {[None := c2]} ->
  c1 = c2.
Proof.
  intros H. apply (f_equal (fun m => m !! None)) in H.
  rewrite !lookup_singleton_eq in H. congruence.
Qed.

(** Without codewords, the inner loop keeps the waveforms stored under
    ['no_codeword']. *)
Lemma collect_elements_success
    (wfs : gmap (nat * string) (gmap (option nat) (gmap string waveform)))
    (w : World) :
  (forall key cws, wfs !! key = Some cws -> exists c, cws = {[None := c]}) ->
  exists el_wfs,
    for_acc (map_to_list wfs) ∅ collect_element w = (Ret el_wfs, w, []) /\
    forall key c, el_wfs !! key = Some c <-> wfs !! key = Some {[None := c]}.
Proof.
  intros Hno.
  destruct (for_acc_success
    (fun pre (acc : gmap (nat * string) (gmap string waveform)) w' tr =>
       w' = w /\ tr = [] /\
       forall key c, acc !! key = Some c <-> (key, {[None := c]}) ∈ pre)
    (map_to_list wfs) collect_element) with (acc := (∅ : gmap (nat * string) (gmap string waveform))) (w := w)
    as (el_wfs & w' & tr & Hrun & -> & -> & Hinv).
  - intros pre [key cws] post acc w' tr Hl (-> & -> & Hacc).
    assert (Hin : (key, cws) ∈ map_to_list wfs).
    { rewrite Hl. apply elem_of_app. right. left. }
    apply elem_of_map_to_list in Hin. destruct (Hno key cws Hin) as [c0 ->].
    exists (<[key := c0]> acc), w, []. split; [apply collect_element_eq|].
    split; [reflexivity|]. split; [reflexivity|].
    intros key' c. rewrite elem_of_app, list_elem_of_singleton. split.
    + destruct (decide (key = key')) as [<-|Hne].
      * rewrite lookup_insert_eq. intros [= ->]. right. reflexivity.
      * rewrite lookup_insert_ne by exact Hne. intros H. left. apply Hacc, H.
    + intros [Hpre | Hx].
      * destruct (decide (key = key')) as [<-|Hne].
        -- assert (Hin' : (key, {[None := c]}) ∈ map_to_list wfs).
           { rewrite Hl. apply elem_of_app. left. exact Hpre. }
           apply elem_of_map_to_list in Hin'. rewrite Hin in Hin'.
           apply (inj Some) in Hin'. apply singleton_None_inj in Hin' as ->.
           apply lookup_insert_eq.
        -- rewrite lookup_insert_ne by exact Hne. apply Hacc, Hpre.
      * assert (Hk : key' = key) by congruence.
        assert (Hc : ({[None := c]} : gmap (option nat) (gmap string waveform))
                     = {[None := c0]}) by congruence.
        subst key'. apply singleton_None_inj in Hc as ->. apply lookup_insert_eq.
  - split; [reflexivity|]. split; [reflexivity|].
    intros key c. rewrite lookup_empty. split; [discriminate|]. intros H. inversion H.
  - exists el_wfs. split; [exact Hrun|]. intros key c.
    rewrite Hinv. apply elem_of_map_to_list.
Qed.

Lemma added_idem (awg : string) (w : World) : added awg (added awg w) = added awg w.
Proof.
  unfold added. simpl. f_equal. apply set_eq. intros x.
  rewrite !elem_of_union. tauto.
Qed.

Lemma collect_segments_success (obj : instrument) (segs : list (string * Segment))
    (w : World) :
  no_codewords (name obj) segs ->
  exists (seg_wfs : list (gmap (nat * string) (gmap string waveform)))
         (has : bool),
    for_acc segs ([], false) (collect_segment obj) w
    = (Ret (seg_wfs, has), (if has then added (name obj) w else w), []) /\
    Forall2 (collected (name obj)) segs seg_wfs /\
    (has = true <->
     exists segment, segment ∈ segs /\ is_Some (seg_waveforms segment.2 !! name obj)).
Proof.
  intros Hno.
  destruct (for_acc_success
    (fun pre (acc : list (gmap (nat * string) (gmap string waveform)) * bool) w' tr =>
       w' = (if acc.2 then added (name obj) w else w) /\ tr = [] /\
       Forall2 (collected (name obj)) pre acc.1 /\
       (acc.2 = true <->
        exists segment, segment ∈ pre /\ is_Some (seg_waveforms segment.2 !! name obj)))
    segs (collect_segment obj))
    with (acc := (@nil (gmap (nat * string) (gmap string waveform)), false)) (w := w)
    as ([seg_wfs has] & w' & tr & Hrun & -> & -> & HF & Hhas).
  - intros pre segment post [seg_wfs has] w' tr Hl (-> & -> & HF & Hhas).
    simpl in *. unfold collect_segment.
    destruct (seg_waveforms segment.2 !! name obj) as [wfs|] eqn:Hseg.
    + destruct (collect_elements_success wfs
                  (added (name obj) (if has then added (name obj) w else w)))
        as (el_wfs & Hel & Hrel).
      { intros key cws Hk. apply (Hno segment wfs key cws); auto.
        rewrite Hl. apply elem_of_app. right. left. }
      exists (seg_wfs ++ [el_wfs], true), (added (name obj) w), []. split.
      * erewrite bind_ret_eq; [ | reflexivity | ].
        2:{ erewrite bind_ret_eq; [ | exact Hel | reflexivity ]. reflexivity. }
        simpl. destruct has; [rewrite added_idem|]; reflexivity.
      * simpl. split; [reflexivity|]. split; [reflexivity|]. split.
        -- apply Forall2_app; [exact HF|]. constructor; [|constructor].
           unfold collected. rewrite Hseg. exact Hrel.
        -- split; [|auto]. intros _. exists segment. split.
           ++ apply elem_of_app. right. left.
           ++ rewrite Hseg. eauto.
    + exists (seg_wfs ++ [∅], has), (if has then added (name obj) w else w), [].
      split; [reflexivity|]. simpl. split; [reflexivity|]. split; [reflexivity|].
      split.
      * apply Forall2_app; [exact HF|]. constructor; [|constructor].
        unfold collected. rewrite Hseg. reflexivity.
      * rewrite Hhas. split.
        -- intros (s & Hs & Hsome). exists s. split; [|exact Hsome].
           apply elem_of_app. left. exact Hs.
        -- intros (s & Hs & Hsome). apply elem_of_app in Hs as [Hs|Hs].
           ++ exists s. auto.
           ++ apply list_elem_of_singleton in Hs as ->. rewrite Hseg in Hsome.
              destruct Hsome as [? [=]].
  - simpl. split; [reflexivity|]. split; [reflexivity|]. split; [constructor|].
    split; [discriminate|]. intros (s & Hs & _). inversion Hs.
  - exists seg_wfs, has. simpl in *. auto.
Qed.

End Collecting.
Section Packing.
Context {D : Driver}.

(** ** Packing *)

Lemma for_acc_warns {A B} (l : list A) (body : B -> A -> M B) (w : World)
    (T : A -> string -> Prop) :
  (forall x acc, x ∈ l -> warns_only (body acc x) w (T x)) ->
  forall acc,
    warns_only (for_acc l acc body) w (fun msg => exists x, x ∈ l /\ T x msg).
Proof.
  intros Hbody acc.
  destruct (for_acc_success
    (fun pre (acc : B) w' tr =>
       w' = w /\ Forall is_warning tr /\
       forall msg, (exists x, x ∈ pre /\ T x msg) -> Log WARNING msg ∈ tr)
    l body) with (acc := acc) (w := w) as (acc' & w' & tr & Hrun & -> & Hall & Hin).
  - intros pre x post a w' tr Hl (-> & Hall & Hin).
    destruct (Hbody x a) as (a' & tr' & Hx & Hall' & Hin').
    { rewrite Hl. apply elem_of_app. right. left. }
    exists a', w, tr'. split; [exact Hx|]. split; [reflexivity|]. split.
    + apply Forall_app. auto.
    + intros msg (y & Hy & HT). apply elem_of_app.
      apply elem_of_app in Hy as [Hy|Hy].
      * left. apply Hin. eauto.
      * apply list_elem_of_singleton in Hy as ->. right. apply Hin', HT.
  - split; [reflexivity|]. split; [constructor|].
    intros msg (x & Hx & _). inversion Hx.
  - exists acc', tr. auto.
Qed.

Lemma pad_warnings_all (obj : instrument) (el : string)
    (cid_wfs : gmap string waveform) (n : nat) (ids : list string) :
  Forall is_warning (pad_warnings obj el cid_wfs n ids).
Proof.
  unfold pad_warnings. induction ids as [|cid ids IH]; [constructor|].
  cbn [flat_map]. apply Forall_app. split; [|exact IH].
  destruct (padded cid_wfs n cid) as [|first rest]; [constructor|].
  destruct (nonzero first); repeat constructor.
Qed.

Lemma pad_warnings_elem (obj : instrument) (el : string)
    (cid_wfs : gmap string waveform) (n : nat) (ids : list string)
    (cid : string) (first : sample) (rest : waveform) :
  cid ∈ ids -> cid_wfs !! cid = Some (first :: rest) -> nonzero first = true ->
  Log WARNING (nonzero_warning el (name obj)) ∈ pad_warnings obj el cid_wfs n ids.
Proof.
  intros Hin Hc Hnz. unfold pad_warnings.
  apply list_elem_of_In, in_flat_map. exists cid.
  split; [apply list_elem_of_In; exact Hin|].
  unfold padded, np_pad. rewrite Hc. simpl. rewrite Hnz. left. reflexivity.
Qed.

Lemma group_ids_fixed (grp : string) :
  prefix3 grp = grp ->
  _awg5014_group_ids grp = [grp; grp +:+ "_m1"; grp +:+ "_m2"].
Proof. intros H. unfold _awg5014_group_ids. rewrite H. reflexivity. Qed.

Lemma pack_group_success (obj : instrument) (el : string)
    (cid_wfs : gmap string waveform) (n : nat) (grp : string) (w : World) :
  prefix3 grp = grp -> 0 < n ->
  (forall cid wf, cid_wfs !! cid = Some wf -> length wf <= n) ->
  pack_group obj el cid_wfs (Len n) grp w
  = (Ret (el +:+ "_" +:+ grp,
          pack_waveform (padded cid_wfs n grp)
                        (padded cid_wfs n (grp +:+ "_m1"))
                        (padded cid_wfs n (grp +:+ "_m2"))),
     w, pad_warnings obj el cid_wfs n (_awg5014_group_ids grp)).
Proof.
  intros Hgrp Hn Hle. unfold pack_group, pad_group.
  assert (Hne : forall cid, cid ∈ _awg5014_group_ids grp -> padded cid_wfs n cid <> []).
  { intros cid _ Hp. apply (f_equal length) in Hp.
    rewrite padded_length in Hp by (apply Hle). simpl in Hp. lia. }
  assert (Hget : forall cid, cid ∈ _awg5014_group_ids grp ->
    getitem (pad_result cid_wfs n ∅ (_awg5014_group_ids grp)) cid w
    = (Ret (padded cid_wfs n cid), w, [])).
  { intros cid Hin. apply getitem_eq, pad_result_in, Hin. }
  rewrite (group_ids_fixed grp Hgrp) in Hget, Hne |- *.
  erewrite bind_ret_eq; [ | apply pad_loop_success, Hne | ].
  2:{ erewrite bind_ret_eq; [ | apply Hget; set_solver | ].
      2:{ erewrite bind_ret_eq; [ | apply Hget; set_solver | ].
          2:{ erewrite bind_ret_eq; [ | apply Hget; set_solver | reflexivity ].
              reflexivity. }
          reflexivity. }
      reflexivity. }
  rewrite ?app_nil_r. reflexivity.
Qed.

Lemma pack_element_warns (obj : instrument) (grps : list string)
    (pw : gmap string packed) (key : nat * string)
    (cid_wfs : gmap string waveform) (w : World) :
  (forall g, g ∈ grps -> prefix3 g = g) ->
  (exists cid wf, cid_wfs !! cid = Some wf /\ wf <> []) ->
  warns_only (pack_element obj grps pw (key, cid_wfs)) w
    (fun msg => exists grp, grp ∈ grps /\
                  group_warnings (name obj) key.2 cid_wfs grp msg).
Proof.
  intros Hgrps (cid0 & wf0 & Hc0 & Hwf0).
  destruct (maxlen_of_nonempty cid_wfs cid0 wf0 Hc0) as (n & Hmax & Hlen).
  destruct (maxlen_of_Len cid_wfs n Hmax) as [Hle _].
  assert (Hn : 0 < n). { destruct wf0; [congruence|simpl in Hlen; lia]. }
  unfold pack_element. cbn [fst snd]. rewrite Hmax.
  apply for_acc_warns. intros grp acc Hgrp.
  eexists _, _. split; [|split].
  - erewrite bind_ret_eq;
      [ | apply pack_group_success; [apply Hgrps, Hgrp | exact Hn | exact Hle]
        | reflexivity ].
    rewrite app_nil_r. reflexivity.
  - apply pad_warnings_all.
  - intros msg (cid & first & rest & Hin & Hc & Hnz & ->).
    eapply pad_warnings_elem; eassumption.
Qed.

Lemma pack_all_warns (obj : instrument)
    (seg_wfs : list (gmap (nat * string) (gmap string waveform)))
    (grps : list string) (w : World) :
  (forall g, g ∈ grps -> prefix3 g = g) ->
  elements_nonempty seg_wfs ->
  warns_only (pack_all obj seg_wfs grps) w
    (fun msg => exists el_wfs key cid_wfs grp,
       el_wfs ∈ seg_wfs /\ el_wfs !! key = Some cid_wfs /\ grp ∈ grps /\
       group_warnings (name obj) key.2 cid_wfs grp msg).
Proof.
  intros Hgrps Hne. unfold pack_all.
  destruct (for_acc_warns seg_wfs (pack_segment obj grps) w
    (fun el_wfs msg => exists key cid_wfs grp,
       el_wfs !! key = Some cid_wfs /\ grp ∈ grps /\
       group_warnings (name obj) key.2 cid_wfs grp msg)) with (acc := (∅ : gmap string packed))
    as (pw & tr & Hrun & Hall & Hin).
  - intros el_wfs acc Hel. unfold pack_segment.
    destruct (for_acc_warns (sorted_items el_wfs) (pack_element obj grps) w
      (fun entry msg => exists grp, grp ∈ grps /\
         group_warnings (name obj) entry.1.2 entry.2 grp msg)) with (acc := acc)
      as (pw & tr & Hrun & Hall & Hin).
    + intros [key cid_wfs] acc' Hentry.
      apply elem_of_sorted_items in Hentry. simpl in Hentry.
      apply pack_element_warns; [exact Hgrps|]. eapply Hne; eassumption.
    + exists pw, tr. split; [exact Hrun|]. split; [exact Hall|].
      intros msg (key & cid_wfs & grp & Hk & Hg & Hw). apply Hin.
      exists (key, cid_wfs). split; [apply elem_of_sorted_items; exact Hk|].
      exists grp. auto.
  - exists pw, tr. split; [exact Hrun|]. split; [exact Hall|].
    intros msg (el_wfs & key & cid_wfs & grp & Hel & H). apply Hin.
    exists el_wfs. split; [exact Hel|]. exists key, cid_wfs, grp. exact H.
Qed.

End Packing.
Section Programming.
Context {D : Driver}.
Variable hdawg8_body : instrument -> Sequence -> M unit.

(** ** The whole of [AWG5014Pulsar._program_awg] *)

Lemma for_obj_emit {A} (p : Pulsar) (awg : string) (l : list A)
    (f : A -> call) (w : World) :
  is_Some (instruments p !! awg) ->
  for_ l (fun x => bind (AWG_obj p awg) (fun obj => emit (Call (name obj) (f x)))) w
  = (Ret tt, w, (fun x => Call awg (f x)) <$> l).
Proof.
  intros [cl Hcl]. induction l as [|x l IH]; [reflexivity|].
  cbn [for_].
  erewrite bind_ret_eq;
    [ | unfold AWG_obj, bind; rewrite Hcl; reflexivity | exact IH ].
  reflexivity.
Qed.

Lemma activate_channels_eq (p : Pulsar) (grps : list string) (awg : string)
    (w : World) :
  is_Some (instruments p !! awg) ->
  _awg5014_activate_channels p grps awg w = (Ret tt, w, activate_events awg grps).
Proof.
  intros Hobj. unfold _awg5014_activate_channels.
  erewrite bind_ret_eq;
    [ | apply (for_obj_emit p awg [1; 2; 3; 4]
                 (fun i : nat => CSet ("ch" +:+ pretty i +:+ "_state") (Lit 0)) w Hobj)
      | apply (for_obj_emit p awg grps
                 (fun grp => CSet (grp +:+ "_state") (Lit 1)) w Hobj) ].
  reflexivity.
Qed.

Lemma build_wfname_l_eq (obj : instrument) (sequence : Sequence)
    (els : list (string * string)) (w : World) :
  awg_sequence sequence !! name obj = Some els ->
  forall grps acc,
    for_acc grps acc (fun wfname_l grp =>
      bind (getitem (awg_sequence sequence) (name obj)) (fun els =>
        ret (wfname_l ++ [grp_wfnames grp els]))) w
    = (Ret (acc ++ ((fun grp => grp_wfnames grp els) <$> grps)), w, []).
Proof.
  intros Hels. induction grps as [|grp grps IH]; intros acc.
  - simpl. rewrite app_nil_r. reflexivity.
  - cbn [for_acc].
    erewrite bind_ret_eq;
      [ | erewrite bind_ret_eq; [ | apply getitem_eq, Hels | reflexivity ];
          reflexivity
        | apply IH ].
    rewrite <- app_assoc. reflexivity.
Qed.

Lemma finish_eq (c : PulsarCfg) (obj : instrument) (grps : list string)
    (awg_file : option awg_file) (w : World) :
  is_Some (instruments (pulsar c) !! name obj) ->
  bind (restore_offsets obj) (fun _ =>
  bind (restore_pars obj) (fun _ =>
  bind (time_sleep 100) (fun _ =>
  bind (emit (Call (name obj) CIsAwgReady)) (fun _ =>
  bind (_awg5014_activate_channels (pulsar c) grps (name obj)) (fun _ =>
  bind (emit (Call (name obj) (CDCOutput
          (if existsb (fun grp =>
                default false (offset_mode_hardware c (name obj) grp)) grps
           then 1 else 0)%Z))) (fun _ =>
  ret awg_file)))))) w
  = (Ret awg_file, tick 100 w, finish_events c (name obj) grps).
Proof.
  intros Hobj.
  erewrite bind_ret_eq; [ | apply for_emit | ].
  2:{ erewrite bind_ret_eq; [ | apply for_emit | ].
      2:{ erewrite bind_ret_eq; [ | reflexivity | ].
          2:{ erewrite bind_ret_eq; [ | reflexivity | ].
              2:{ erewrite bind_ret_eq; [ | apply activate_channels_eq, Hobj | ].
                  2:{ erewrite bind_ret_eq; [ | reflexivity | reflexivity ].
                      reflexivity. }
                  reflexivity. }
              reflexivity. }
          reflexivity. }
      reflexivity. }
  unfold finish_events. simpl. rewrite ?app_nil_r, <- ?app_assoc. reflexivity.
Qed.


Lemma upload_eq (obj : instrument) (filename : string) (pw : gmap string packed)
    (names : list (list string)) (nrep wait goto jump : list Z) (w : World) :
  upload obj filename pw names nrep wait goto jump w
  = match names with
    | [] => (Ret None, w, [])
    | _ =>
        let file := generate_awg_file pw names nrep wait goto jump
                      (_awg5014_chan_cfg (name obj)) in
        (Ret (Some file), w, upload_events (name obj) filename file)
    end.
Proof. destruct names; reflexivity. Qed.

Lemma set_last_replicate (n : nat) (w : World) :
  n <> 0 ->
  set_last (replicate n 0%Z) 1%Z w
  = (Ret (<[Nat.pred n := 1%Z]> (replicate n 0%Z)), w, []).
Proof.
  intros Hn. destruct n as [|n]; [contradiction|].
  unfold set_last. cbn [replicate]. change (0%Z :: replicate n 0%Z) with (replicate (S n) 0%Z).
  rewrite length_replicate. reflexivity.
Qed.

Lemma collected_nonempty (awg : string) (segs : list (string * Segment))
    (seg_wfs : list (gmap (nat * string) (gmap string waveform))) :
  plain_elements awg segs -> Forall2 (collected awg) segs seg_wfs ->
  elements_nonempty seg_wfs.
Proof.
  intros Hplain HF el_wfs key cid_wfs Hel Hkey.
  apply list_elem_of_lookup in Hel as [i Hi].
  destruct (Forall2_lookup_r _ _ _ _ _ HF Hi) as (segment & Hseg & Hcol).
  unfold collected in Hcol.
  destruct (seg_waveforms segment.2 !! awg) as [wfs|] eqn:Hwfs.
  - apply Hcol in Hkey.
    destruct (Hplain segment wfs key _ (list_elem_of_lookup_2 _ _ _ Hseg) Hwfs Hkey)
      as (c & cid & wf & Hc & Hcid & Hwf).
    apply singleton_None_inj in Hc as ->. eauto.
  - subst el_wfs. rewrite lookup_empty in Hkey. discriminate.
Qed.

Lemma plain_no_codewords (awg : string) (segs : list (string * Segment)) :
  plain_elements awg segs -> no_codewords awg segs.
Proof.
  intros Hplain segment wfs key cws Hin Hseg Hkey.
  destruct (Hplain segment wfs key cws Hin Hseg Hkey) as (c & _ & _ & -> & _).
  eauto.
Qed.

(** A sequence of plain elements is programmed without an exception: the
    packing loop emits nothing but warnings, and generation and upload
    follow whenever a channel group is in use. *)
Lemma program_5014_body_success (c : PulsarCfg) (obj : instrument)
    (sequence : Sequence) (els : list (string * string)) (w : World) :
  is_Some (instruments (pulsar c) !! name obj) ->
  plain_elements (name obj) (segments sequence) ->
  (exists segment, segment ∈ segments sequence /\
                   is_Some (seg_waveforms segment.2 !! name obj)) ->
  awg_sequence sequence !! name obj = Some els -> els <> [] ->
  exists seg_wfs pw warns,
    Forall2 (collected (name obj)) (segments sequence) seg_wfs /\
    Forall is_warning warns /\
    (forall msg,
       (exists el_wfs key cid_wfs grp,
          el_wfs ∈ seg_wfs /\ el_wfs !! key = Some cid_wfs /\
          grp ∈ used_grps seg_wfs /\
          group_warnings (name obj) key.2 cid_wfs grp msg) ->
       Log WARNING msg ∈ warns) /\
    program_5014_body c obj sequence w
    = (Ret (match used_grps seg_wfs with
            | [] => None
            | _ => Some (awg_file_of (name obj) pw (used_grps seg_wfs) els)
            end),
       tick 100 (added (name obj) w),
       warns ++ programming_info (name obj) sequence ::
       match used_grps seg_wfs with
       | [] => []
       | _ => upload_events (name obj) (seq_name sequence +:+ "_FILE.AWG")
                (awg_file_of (name obj) pw (used_grps seg_wfs) els)
       end ++ finish_events c (name obj) (used_grps seg_wfs)).
Proof.
  intros Hobj Hplain Hsome Hels Hne.
  destruct (collect_segments_success obj (segments sequence) w
              (plain_no_codewords _ _ Hplain))
    as (seg_wfs & has & Hcollect & HF & Hhas).
  assert (has = true) as -> by (apply Hhas, Hsome).
  destruct (pack_all_warns obj seg_wfs (used_grps seg_wfs) (added (name obj) w))
    as (pw & warns & Hpack & Hwarn & Hin).
  { intros g. apply used_grps_prefix. }
  { eapply collected_nonempty; eassumption. }
  exists seg_wfs, pw, warns. split; [exact HF|]. split; [exact Hwarn|].
  split; [exact Hin|].
  unfold program_5014_body, program_5014_rest.
  assert (Hup : forall names nrep wait goto jump w0,
    upload obj (seq_name sequence +:+ "_FILE.AWG") pw names nrep wait goto jump w0
    = (Ret (match names with
            | [] => None
            | _ => Some (generate_awg_file pw names nrep wait goto jump
                           (_awg5014_chan_cfg (name obj)))
            end), w0,
       match names with
       | [] => []
       | _ => upload_events (name obj) (seq_name sequence +:+ "_FILE.AWG")
                (generate_awg_file pw names nrep wait goto jump
                   (_awg5014_chan_cfg (name obj)))
       end)).
  { intros. rewrite upload_eq. destruct names; reflexivity. }
  erewrite bind_ret_eq; [ | exact Hcollect | ].
  2:{ cbn [fst snd negb].
      erewrite bind_ret_eq; [ | exact Hpack | ].
      2:{ erewrite bind_ret_eq; [ | reflexivity | ].
          2:{ erewrite bind_ret_eq;
                [ | apply (build_wfname_l_eq obj sequence els _ Hels) | ].
              2:{ erewrite bind_ret_eq; [ | apply getitem_eq, Hels | ].
                  2:{ erewrite bind_ret_eq;
                        [ | apply set_last_replicate;
                            destruct els; [contradiction|discriminate]
                          | ].
                      2:{ erewrite bind_ret_eq; [ | apply Hup | ].
                          2:{ apply finish_eq, Hobj. }
                          reflexivity. }
                      reflexivity. }
                  reflexivity. }
              reflexivity. }
          reflexivity. }
      reflexivity. }
  cbn [app]. unfold awg_file_of.
  destruct (used_grps seg_wfs) as [|g grps]; cbn; rewrite ?app_nil_r; reflexivity.
Qed.

End Programming.
Section Warnings.
Context {D : Driver}.
Variable hdawg8_body : instrument -> Sequence -> M unit.


End Warnings.
Section FrameRules.
Context {D : Driver}.

(** ** What programming leaves alone *)

Lemma always_step_world {A} (R : World -> World -> Prop) (Ev : event -> Prop)
    (Q : A -> Prop) (f : World -> World) (a : A) (evs : list event) :
  (forall w, R w (f w)) -> Forall Ev evs -> Q a ->
  always R Ev Q (fun w => (Ret a, f w, evs)).
Proof.
  intros HR HE HQ w r w' tr [= <- <- <-]. repeat split; auto. congruence.
Qed.

Lemma always_read {A} (R : World -> World -> Prop) (Ev : event -> Prop)
    (f : World -> A) :
  (forall w, R w w) -> always R Ev (fun _ => True) (fun w => (Ret (f w), w, [])).
Proof. intros HR w r w' tr [= <- <- <-]. repeat split; auto. Qed.

End FrameRules.

(** Decomposition of a computation into its steps, for a judgment with the
    trivial postcondition; [side] closes the conditions on single steps. *)
Ltac always_go side :=
  repeat first
    [ lazymatch goal with
      | |- always ?R ?Ev _ (bind _ _) =>
          eapply (always_bind R Ev (fun _ => True)); [ | intros ? _ ]
      | |- always ?R ?Ev _ (ret _) => apply (always_ret R Ev); exact I
      | |- always ?R ?Ev _ (raise _) => apply (always_raise R Ev)
      | |- always ?R ?Ev _ (emit _) => apply (always_emit R Ev); [side | exact I]
      | |- always ?R ?Ev _ (log_warning _) =>
          apply (always_emit R Ev); [side | exact I]
      | |- always ?R ?Ev _ (log_info _) =>
          apply (always_emit R Ev); [side | exact I]
      | |- always ?R ?Ev _ (for_ _ _) => apply (always_for R Ev); intros ? _
      | |- always ?R ?Ev _ (for_acc _ _ _) =>
          apply (always_for_acc R Ev (fun _ => True));
          [ intros ? ? _ _ | exact I ]
      | |- always ?R ?Ev _ (getitem _ _) =>
          eapply (always_weaken R Ev); [apply (always_getitem R Ev) | auto]
      | |- always ?R ?Ev _ (AWG_obj _ _) =>
          eapply (always_weaken R Ev); [apply (always_AWG_obj R Ev) | auto]
      | |- always ?R ?Ev _ time_time => apply (always_time_time R Ev)
      | |- always _ _ _ (elapse _) =>
          apply always_step_world; [side | constructor | exact I]
      | |- always _ _ _ (awgs_with_waveforms_add _) =>
          apply always_step_world; [side | constructor | exact I]
      | |- always _ _ _ (let _ := _ in _) => cbv zeta
      | |- always _ _ _ (if ?b then _ else _) => destruct b
      | |- always _ _ _ (match ?x with _ => _ end) => destruct x
      end ].

Section FrameProperties.
Context {D : Driver}.

#[local] Instance same_active_preorder : PreOrder same_active.
Proof.
  split.
  - intros w. reflexivity.
  - intros w1 w2 w3 H1 H2. unfold same_active in *. congruence.
Qed.


#[local] Instance grows_preorder : PreOrder grows.
Proof.
  split.
  - intros w. unfold grows. reflexivity.
  - intros w1 w2 w3 H1 H2. unfold grows in *. etransitivity; eassumption.
Qed.

Ltac side_grows :=
  first [ exact I
        | (intros; unfold grows; simpl; first [reflexivity | apply union_subseteq_r]) ].

Ltac unfold_5014 :=
  unfold program_5014_body, program_5014_rest, collect_segment,
    collect_element, pack_all,
    pack_segment, pack_element, pack_group, pad_group, pad_channel,
    build_wfname_l, set_last, upload, restore_offsets, restore_pars,
    time_sleep, _awg5014_activate_channels.


Lemma program_5014_rest_grows (c : PulsarCfg) (obj : instrument)
    (sequence : Sequence) acc :
  always grows (fun _ => True) (fun _ => True)
    (program_5014_rest c obj sequence acc).
Proof. unfold_5014. always_go side_grows. Qed.


(** ** Which AWGs end in the set of AWGs with waveforms *)

#[local] Instance any_world_preorder : PreOrder any_world.
Proof. split; intros ?; unfold any_world; auto. Qed.

Lemma collect_none (obj : instrument) (segs : list (string * Segment)) (w : World) :
  (forall segment, segment ∈ segs -> seg_waveforms segment.2 !! name obj = None) ->
  forall acc,
    for_acc segs acc (collect_segment obj) w
    = (Ret (acc.1 ++ replicate (length segs) ∅, acc.2), w, []).
Proof.
  induction segs as [|segment segs IH]; intros Hnone acc.
  - simpl. rewrite app_nil_r. destruct acc; reflexivity.
  - cbn [for_acc].
    erewrite bind_ret_eq;
      [ | unfold collect_segment; rewrite (Hnone segment) by left; reflexivity
        | apply IH; intros s Hs; apply Hnone; right; exact Hs ].
    simpl. rewrite <- app_assoc. reflexivity.
Qed.

Lemma collect_elements_grows
    (wfs : gmap (nat * string) (gmap (option nat) (gmap string waveform))) :
  always grows (fun _ => True) (fun _ => True)
    (for_acc (map_to_list wfs) ∅ collect_element).
Proof. unfold collect_element. always_go side_grows. Qed.

Lemma collect_segment_adds (obj : instrument) acc (segment : string * Segment)
    w r w' tr :
  collect_segment obj acc segment w = (r, w', tr) ->
  is_Some (seg_waveforms segment.2 !! name obj) ->
  name obj ∈ with_wfs w'.
Proof.
  unfold collect_segment. intros Hrun [wfs Hwfs]. rewrite Hwfs in Hrun.
  apply bind_inv in Hrun
    as [(a & w1 & t1 & t2 & H1 & H2 & ->) | [(e & H1 & ->) | (H1 & ->)]];
    try discriminate.
  injection H1 as _ <- _.
  assert (Hgrow : grows (added (name obj) w) w').
  { apply bind_inv in H2
      as [(a' & w2 & t3 & t4 & H3 & H4 & ->) | [(e & H3 & ->) | (H3 & ->)]].
    - injection H4 as _ <- _. exact (proj1 (collect_elements_grows wfs _ _ _ _ H3)).
    - exact (proj1 (collect_elements_grows wfs _ _ _ _ H3)).
    - exact (proj1 (collect_elements_grows wfs _ _ _ _ H3)). }
  apply Hgrow. simpl. apply elem_of_union. left. apply elem_of_singleton. reflexivity.
Qed.

Lemma collect_segment_grows (obj : instrument) acc (segment : string * Segment) :
  always grows (fun _ => True) (fun _ => True) (collect_segment obj acc segment).
Proof. unfold collect_segment, collect_element. always_go side_grows. Qed.

Lemma collect_adds (obj : instrument) (segs : list (string * Segment)) :
  forall acc w r w' tr,
    for_acc segs acc (collect_segment obj) w = (r, w', tr) ->
    (exists segment, segment ∈ segs /\
                     is_Some (seg_waveforms segment.2 !! name obj)) ->
    name obj ∈ with_wfs w'.
Proof.
  induction segs as [|segment segs IH]; intros acc w r w' tr Hrun (s & Hs & Hsome).
  - inversion Hs.
  - cbn [for_acc] in Hrun.
    apply bind_inv in Hrun
      as [(a & w1 & t1 & t2 & H1 & H2 & ->) | [(e & H1 & ->) | (H1 & ->)]].
    + apply elem_of_cons in Hs as [->|Hs].
      * assert (Hin : name obj ∈ with_wfs w1)
          by (eapply collect_segment_adds; eassumption).
        assert (Hgrow : grows w1 w').
        { refine (proj1 (always_for_acc grows (fun _ => True) (fun _ => True)
                    segs (collect_segment obj) _ a I _ _ _ _ H2)).
          intros acc' x _ _. eapply always_weaken;
            [apply collect_segment_grows|auto]. }
        apply Hgrow, Hin.
      * eapply IH; [exact H2|eauto].
    + destruct (seg_waveforms segment.2 !! name obj) as [wfs|] eqn:Hwfs.
      * eapply collect_segment_adds; [exact H1|rewrite Hwfs; eauto].
      * unfold collect_segment in H1. rewrite Hwfs in H1. discriminate.
    + destruct (seg_waveforms segment.2 !! name obj) as [wfs|] eqn:Hwfs.
      * eapply collect_segment_adds; [exact H1|rewrite Hwfs; eauto].
      * unfold collect_segment in H1. rewrite Hwfs in H1. discriminate.
Qed.


(** ** When an AWG file is uploaded *)





Lemma program_5014_body_none (c : PulsarCfg) (obj : instrument)
    (sequence : Sequence) (w : World) :
  (forall segment, segment ∈ segments sequence ->
                   seg_waveforms segment.2 !! name obj = None) ->
  program_5014_body c obj sequence w
  = match instruments (pulsar c) !! name obj with
    | Some _ => (Ret None, w, activate_events (name obj) [])
    | None => (Raise (KeyError (name obj)), w, [])
    end.
Proof.
  intros Hnone. unfold program_5014_body, program_5014_rest.
  destruct (instruments (pulsar c) !! name obj) as [cl|] eqn:Hobj.
  - erewrite bind_ret_eq; [ | apply collect_none, Hnone | ].
    2:{ cbn [fst snd negb].
        erewrite bind_ret_eq;
          [ | apply activate_channels_eq; rewrite Hobj; eauto | reflexivity ].
        reflexivity. }
    cbn [app]. rewrite app_nil_r. reflexivity.
  - erewrite bind_ret_eq; [ | apply collect_none, Hnone | ].
    2:{ cbn [fst snd negb]. apply bind_raise_eq.
        unfold _awg5014_activate_channels. apply bind_raise_eq.
        cbn [for_]. apply bind_raise_eq.
        unfold AWG_obj, bind. rewrite Hobj. reflexivity. }
    reflexivity.
Qed.

Variable hdawg8_body : instrument -> Sequence -> M unit.


End FrameProperties.
Section ProgramAwgs.
Context {D : Driver}.
Variable hdawg8_body : instrument -> Sequence -> M unit.

(** ** [program_awgs] *)

Lemma for_stops_at_raise {A} (body : A -> M unit) (d : A) (post : list A)
    (e : exn) (w2 : World) (t2 : list event) :
  forall (pre : list A) (w0 w1 : World) (t1 : list event),
    for_ pre body w0 = (Ret tt, w1, t1) ->
    body d w1 = (Raise e, w2, t2) ->
    for_ (pre ++ d :: post) body w0 = (Raise e, w2, t1 ++ t2).
Proof.
  induction pre as [|x pre IH]; intros w0 w1 t1 Hpre Hd.
  - injection Hpre as <- <-. cbn [app for_]. apply bind_raise_eq. exact Hd.
  - cbn [for_] in Hpre.
    apply bind_inv in Hpre
      as [(a & wx & tx & t1' & Hx & Hrest & ->) | [(e' & _ & [=]) | (_ & [=])]].
    cbn [app for_]. destruct a.
    erewrite bind_ret_eq; [ | exact Hx | apply (IH _ _ _ Hrest Hd) ].
    rewrite app_assoc. reflexivity.
Qed.

(** C3, as the code has it: [program_awgs] programs the devices one after
    the other, each step generating and uploading at once; when the step of
    one device raises, the exception leaves [program_awgs] immediately, so the
    events of the devices programmed before (their uploads among them) have
    happened, and the devices after it are not touched. *)
Theorem program_awgs_stops_at_failure (c : PulsarCfg) (sequence : Sequence)
    (pre post : list string) (d : string) (e : exn)
    (w w0 w1 w2 : World) (t0 t1 t2 : list event) :
  bind reset_with_wfs (fun _ => AWGs_prequeried (pulsar c) true) w
  = (Ret tt, w0, t0) ->
  for_ pre (fun awg =>
    bind (AWG_obj (pulsar c) awg) (fun obj =>
      Pulsar_program_awg hdawg8_body c obj sequence)) w0
  = (Ret tt, w1, t1) ->
  bind (AWG_obj (pulsar c) d) (fun obj =>
    Pulsar_program_awg hdawg8_body c obj sequence) w1
  = (Raise e, w2, t2) ->
  program_awgs hdawg8_body c sequence (Some (pre ++ d :: post)) w
  = (Raise e, w2, t0 ++ t1 ++ t2).
Proof.
  intros Hpq Hpre Hd. unfold program_awgs.
  apply bind_inv in Hpq
    as [(a & wr & tr & tq & Hreset & Hq & ->) | [(e' & _ & [=]) | (_ & [=])]].
  erewrite bind_ret_eq; [ | exact Hreset | ].
  2:{ erewrite bind_ret_eq; [ | reflexivity | ].
      2:{ erewrite bind_ret_eq; [ | exact Hq | ].
          2:{ apply bind_raise_eq.
              apply (for_stops_at_raise _ d post e w2 t2 pre w0 w1 t1 Hpre Hd). }
          reflexivity. }
      reflexivity. }
  cbn [app]. rewrite <- app_assoc. reflexivity.
Qed.

End ProgramAwgs.
Section Legacy.
Context {D : Driver}.

(** ** The legacy path *)

Lemma elem_of_used_grps_old (el_wfs : gmap (nat * string) (gmap string waveform))
    (g : string) :
  g ∈ used_grps_old el_wfs <->
  exists key cid_wfs cid wf,
    el_wfs !! key = Some cid_wfs /\ cid_wfs !! cid = Some wf /\ g = prefix3 cid.
Proof.
  unfold used_grps_old. rewrite elem_of_sorted_list.
  rewrite (foldl_grow _ (fun (cid_wfs : gmap string waveform) g =>
    exists cid wf, cid_wfs !! cid = Some wf /\ g = prefix3 cid)).
  - split.
    + intros [H|(cid_wfs & Hin & cid & wf & H)]; [inversion H|].
      apply list_elem_of_fmap in Hin as ([key v] & -> & Hin).
      apply elem_of_map_to_list in Hin. exists key, v, cid, wf. tauto.
    + intros (key & cid_wfs & cid & wf & Hk & H). right.
      exists cid_wfs. split; [|eauto].
      apply list_elem_of_fmap. exists (key, cid_wfs). split; [reflexivity|].
      apply elem_of_map_to_list. exact Hk.
  - intros S cid_wfs g'.
    rewrite (foldl_grow _ (fun (entry : string * waveform) g => g = prefix3 entry.1)).
    + split.
      * intros [H|([cid wf] & Hin & ->)]; [auto|]. right.
        apply elem_of_map_to_list in Hin. exists cid, wf. auto.
      * intros [H|(cid & wf & Hc & ->)]; [auto|]. right.
        exists (cid, wf). split; [apply elem_of_map_to_list; exact Hc|auto].
    + intros S' [cid wf] g3. simpl.
      rewrite elem_of_union, elem_of_singleton. tauto.
Qed.

Lemma maxlen_old_pos (cid_wfs : gmap string waveform) : 0 < maxlen_old cid_wfs.
Proof.
  unfold maxlen_old. generalize (map_to_list cid_wfs).*2. intros l.
  assert (H : forall init, init <= foldl (fun maxlen (wf : waveform) =>
                                     Nat.max maxlen (length wf)) init l).
  { induction l as [|wf l IH]; intros init; simpl; [lia|].
    specialize (IH (Nat.max init (length wf))). lia. }
  specialize (H 1). lia.
Qed.

Lemma padded_nonempty (cid_wfs : gmap string waveform) (n : nat) (cid : string) :
  0 < n -> padded cid_wfs n cid <> [].
Proof.
  intros Hn Hp. apply (f_equal length) in Hp. unfold padded, np_pad in Hp.
  rewrite length_app, length_replicate in Hp. simpl in Hp. lia.
Qed.

Lemma pad_group_old_success (el : string) (cid_wfs : gmap string waveform)
    (n : nat) (grp : string) (nz : gset string) (w : World) :
  0 < n ->
  exists r,
    pad_group_old el cid_wfs n grp nz w = (Ret r, w, []) /\
    forall cid, cid ∈ _awg5014_group_ids grp -> is_Some (r.1 !! cid).
Proof.
  intros Hn. unfold pad_group_old.
  destruct (for_acc_success
    (fun pre (acc : gmap string waveform * gset string) w' tr =>
       w' = w /\ tr = [] /\ forall cid, cid ∈ pre -> is_Some (acc.1 !! cid))
    (_awg5014_group_ids grp) (pad_channel_old el cid_wfs n))
    with (acc := ((∅ : gmap string waveform), nz)) (w := w)
    as (r & w' & tr & Hrun & -> & -> & Hr).
  - intros pre cid post acc w' tr _ (-> & -> & Hacc).
    unfold pad_channel_old. fold (padded cid_wfs n cid).
    destruct (padded cid_wfs n cid) as [|first rest] eqn:Hp.
    { exfalso. exact (padded_nonempty cid_wfs n cid Hn Hp). }
    eexists _, w, []. split; [reflexivity|].
    split; [reflexivity|]. split; [reflexivity|].
    intros cid' Hin. cbn [fst]. apply elem_of_app in Hin as [Hin|Hin].
    + destruct (decide (cid = cid')) as [->|Hne].
      * rewrite lookup_insert_eq. eauto.
      * rewrite lookup_insert_ne by exact Hne. apply Hacc, Hin.
    + apply list_elem_of_singleton in Hin as ->. rewrite lookup_insert_eq. eauto.
  - split; [reflexivity|]. split; [reflexivity|]. intros cid Hin. inversion Hin.
  - exists r. auto.
Qed.

Lemma pack_group_old_success (el : string) (cid_wfs : gmap string waveform)
    (n : nat) (st : PackOld) (grp : string) (w : World) :
  0 < n -> prefix3 grp = grp ->
  exists st',
    pack_group_old el cid_wfs n st grp w = (Ret st', w, []) /\
    is_Some (po_wfname st').
Proof.
  intros Hn Hgrp. unfold pack_group_old.
  destruct (pad_group_old_success el cid_wfs n grp (po_nonzero st) w Hn)
    as (r & Hpad & Hids).
  rewrite (group_ids_fixed grp Hgrp) in Hids.
  destruct (Hids grp ltac:(set_solver)) as [a Ha].
  destruct (Hids (grp +:+ "_m1") ltac:(set_solver)) as [m1 Hm1].
  destruct (Hids (grp +:+ "_m2") ltac:(set_solver)) as [m2 Hm2].
  eexists. split.
  - erewrite bind_ret_eq; [ | exact Hpad | ].
    2:{ erewrite bind_ret_eq; [ | apply getitem_eq, Ha | ].
        2:{ erewrite bind_ret_eq; [ | apply getitem_eq, Hm1 | ].
            2:{ erewrite bind_ret_eq; [ | apply getitem_eq, Hm2 | reflexivity ].
                reflexivity. }
            reflexivity. }
        reflexivity. }
    reflexivity.
  - simpl. eauto.
Qed.

Lemma pack_all_old_success (el_wfs : gmap (nat * string) (gmap string waveform))
    (w : World) :
  exists po,
    pack_all_old el_wfs (used_grps_old el_wfs) w = (Ret po, w, []) /\
    (used_grps_old el_wfs <> [] -> is_Some (po_wfname po)).
Proof.
  unfold pack_all_old.
  set (grps := used_grps_old el_wfs).
  assert (Hgrps : forall g, g ∈ grps -> prefix3 g = g).
  { intros g Hg. apply elem_of_used_grps_old in Hg
      as (? & ? & cid & ? & _ & _ & ->). apply prefix3_idem. }
  destruct (for_acc_success
    (fun pre (st : PackOld) w' tr =>
       w' = w /\ tr = [] /\ (pre <> [] -> grps <> [] -> is_Some (po_wfname st)))
    (sorted_items el_wfs) (pack_element_old grps))
    with (acc := {| po_packed := ∅; po_nonzero := ∅; po_wfname := None |}) (w := w)
    as (po & w' & tr & Hrun & -> & -> & Hpo).
  - intros pre entry post st w' tr _ (-> & -> & Hst). unfold pack_element_old.
    destruct (for_acc_success
      (fun pre' (st' : PackOld) w' tr =>
         w' = w /\ tr = [] /\ (pre' <> [] -> is_Some (po_wfname st')))
      grps (pack_group_old entry.1.2 entry.2 (maxlen_old entry.2)))
      with (acc := st) (w := w)
      as (st' & w' & tr & Hrun & -> & -> & Hst').
    + intros pre' grp post' st' w' tr Hl (-> & -> & _).
      destruct (pack_group_old_success entry.1.2 entry.2 (maxlen_old entry.2)
                  st' grp w (maxlen_old_pos _)) as (st'' & Hrun & Hsome).
      { apply Hgrps. rewrite Hl. apply elem_of_app. right. left. }
      exists st'', w, []. auto.
    + split; [reflexivity|]. split; [reflexivity|]. intros H. contradiction.
    + exists st', w, []. split; [exact Hrun|]. split; [reflexivity|].
      split; [reflexivity|]. intros _ Hne. apply Hst', Hne.
  - split; [reflexivity|]. split; [reflexivity|]. intros H. contradiction.
  - exists po. split; [exact Hrun|]. intros Hne. apply Hpo; [|exact Hne].
    destruct grps as [|g grps'] eqn:Hg; [contradiction|].
    assert (Hin : g ∈ used_grps_old el_wfs) by (fold grps; rewrite Hg; left).
    apply elem_of_used_grps_old in Hin as (key & cid_wfs & _ & _ & Hk & _).
    intros Hnil.
    assert (Hentry : (key, cid_wfs) ∈ sorted_items el_wfs)
      by (apply elem_of_sorted_items; exact Hk).
    rewrite Hnil in Hentry. inversion Hentry.
Qed.





Lemma grp_wfnames_length (grp : string) (els : list (string * string)) :
  length (grp_wfnames grp els) = length els.
Proof. unfold grp_wfnames. apply length_map. Qed.

(** C4, as the code has it: when the sequence has more than 8000 elements,
    the legacy AWG5014 path does not raise; it hands a warning to the logger
    and returns [None], and no AWG file is generated, sent or loaded.  The
    current path checks no limit at all: a plain sequence of any length is
    programmed without an exception, and the tables of a generated file have
    one entry for each element of the sequence. *)
Theorem too_large_skips_upload :
  (forall (c : PulsarCfg) (obj : instrument) (sequence : LegacySequence)
          (el_wfs : gmap (nat * string) (gmap string waveform)) (loop : bool)
          (w : World),
     cls obj = ClsAWG5014 ->
     (8000 < element_count sequence)%Z ->
     AWG5014Pulsar_program_awg_old c obj sequence el_wfs loop w
     = (Ret None, w,
        [Call (name obj) (CTimeout (Z.max 180 (hw_timeout (name obj))));
         Log WARNING (too_large_warning sequence)])) /\
  (forall (c : PulsarCfg) (obj : instrument) (sequence : Sequence)
          (els : list (string * string)) (w : World),
     is_Some (instruments (pulsar c) !! name obj) ->
     plain_elements (name obj) (segments sequence) ->
     (exists segment, segment ∈ segments sequence /\
                      is_Some (seg_waveforms segment.2 !! name obj)) ->
     awg_sequence sequence !! name obj = Some els -> els <> [] ->
     exists r w' tr,
       program_5014_body c obj sequence w = (Ret r, w', tr) /\
       (forall grp, length (grp_wfnames grp els) = length els) /\
       forall file, r = Some file ->
         exists pw grps, file = awg_file_of (name obj) pw grps els).
Proof.
  split.
  - intros c obj sequence el_wfs loop w Hcls Hlarge.
    unfold AWG5014Pulsar_program_awg_old. rewrite Hcls.
    unfold program_5014_old_body.
    destruct (pack_all_old_success el_wfs w) as (po & Hpack & _).
    erewrite bind_ret_eq; [ | reflexivity | ].
    2:{ erewrite bind_ret_eq; [ | exact Hpack | ].
        2:{ erewrite bind_ret_eq; [ | reflexivity | ].
            2:{ rewrite (proj2 (Z.ltb_lt _ _) Hlarge).
                erewrite bind_ret_eq; [ | reflexivity | reflexivity ].
                reflexivity. }
            reflexivity. }
        reflexivity. }
    reflexivity.
  - intros c obj sequence els w Hobj Hplain Hsome Hels Hne.
    destruct (program_5014_body_success c obj sequence els w Hobj Hplain Hsome
                Hels Hne) as (seg_wfs & pw & warns & _ & _ & _ & Hrun).
    eexists _, _, _. split; [exact Hrun|].
    split; [intros grp; apply grp_wfnames_length|].
    intros file Hfile. exists pw, (used_grps seg_wfs).
    destruct (used_grps seg_wfs); congruence.
Qed.


End Legacy.

(** * The theorems at concrete inputs *)

Lemma demo_pulsar_supported (awg : string) :
  awg ∈ awgs demo_pulsar \/ awg = "M" -> @supported demo_pulsar awg.
Proof.
  intros [H| ->]; [|left; reflexivity].
  unfold demo_pulsar in H. cbn [awgs] in H.
  apply elem_of_union in H as [H|H];
    [apply elem_of_union in H as [H|H]|];
    apply elem_of_singleton in H; subst awg;
    [left | left | right]; reflexivity.
Defined.

Lemma seq_one_plain : plain_elements "D1" (segments seq_one).
Proof.
  intros segment wfs key cws Hin Hwfs Hkey.
  apply list_elem_of_singleton in Hin. subst segment.
  cbn [seq_one segments snd seg_waveforms] in Hwfs.
  rewrite lookup_singleton_eq in Hwfs. apply (inj Some) in Hwfs. subst wfs.
  apply lookup_singleton_Some in Hkey as [_ <-].
  exists wf_pulse, "ch1", [1; 2; 0]%Z. repeat split; discriminate.
Defined.

(** Start of the three demo AWGs: the theorem applies, and the run ends
    with the start of the master or with the time-out exception. *)
Lemma start_master_after_slaves_witness :
  exists r w' tr,
    @start demo_driver 200 demo_pulsar demo_world = (r, w', tr) /\
    (r = Ret tt \/ exists s, r = Raise (timeout_error s)).
Proof.
  pose proof (@start_master_after_slaves demo_driver demo_pulsar "M" 200
                demo_world eq_refl demo_pulsar_supported ltac:(lia)) as H.
  cbv zeta in H. destruct H as (r & w' & polls & Heq & _ & _ & Hr & _).
  exists r, w'. eexists. split; [exact Heq|].
  destruct Hr as [Hr|(s & _ & Hr)]; [left|right; exists s]; exact Hr.
Defined.

(** A slave that never runs: the exception that [start] raises is an
    instance of the built-in class [Exception], not of a class of its own,
    and the master has not been started. *)
Lemma start_timeout_raises_plain_exception :
  let run := @start stuck_driver 200 demo_pulsar demo_world in
  exists e,
    fst (fst run) = Raise e /\
    e = Exception "AWG S2 did not start in 10s" /\
    exn_class e = "Exception" /\
    exn_class e <> "SlaveStartTimeoutError" /\
    existsb (fun ev => match ev with Call "M" CStart => true | _ => false end)
      (snd run) = false.
Proof.
  exists (Exception "AWG S2 did not start in 10s").
  split; [vm_compute; reflexivity|].
  split; [reflexivity|]. split; [reflexivity|]. split; [discriminate|].
  vm_compute. reflexivity.
Qed.


(** [stop] on the three demo AWGs. *)
Lemma stop_exactly_used_witness :
  exists tr,
    @stop demo_driver demo_pulsar demo_world = (Ret tt, demo_world, tr) /\
    NoDup tr.
Proof.
  destruct (@stop_exactly_used demo_driver demo_pulsar demo_world)
    as (tr & Heq & Hnd & _).
  - intros awg Hin.
    destruct (demo_pulsar_supported awg (or_introl Hin)) as [H|H];
      rewrite H; eexists; reflexivity.
  - exists tr. split; [exact Heq | exact Hnd].
Defined.







(** ["D1"] is programmed, then the programming of ["D2"] fails. *)
Lemma program_awgs_stops_at_failure_witness :
  fst (fst (@program_awgs plain_driver (no_hdawg8 _) two_awgs seq_two
              (Some ["D1"; "D2"]) idle_world))
  = Raise (Exception "AWG5014 does not support codewords").
Proof.
  set (m0 := bind reset_with_wfs
               (fun _ => @AWGs_prequeried plain_driver (pulsar two_awgs) true)).
  set (step := fun awg =>
         bind (@AWG_obj plain_driver (pulsar two_awgs) awg)
           (fun obj => Pulsar_program_awg (no_hdawg8 _) two_awgs obj seq_two)).
  assert (H0 : m0 idle_world
               = (Ret tt, snd (fst (m0 idle_world)), snd (m0 idle_world))).
  { assert (E : fst (fst (m0 idle_world)) = Ret tt) by (vm_compute; reflexivity).
    destruct (m0 idle_world) as [[r w] t]. cbn [fst snd] in *. rewrite E.
    reflexivity. }
  set (w0 := snd (fst (m0 idle_world))) in *.
  assert (H1 : for_ ["D1"] step w0
               = (Ret tt, snd (fst (for_ ["D1"] step w0)),
                  snd (for_ ["D1"] step w0))).
  { assert (E : fst (fst (for_ ["D1"] step w0)) = Ret tt)
      by (vm_compute; reflexivity).
    destruct (for_ ["D1"] step w0) as [[r w] t]. cbn [fst snd] in *. rewrite E.
    reflexivity. }
  set (w1 := snd (fst (for_ ["D1"] step w0))) in *.
  assert (H2 : step "D2" w1
               = (Raise (Exception "AWG5014 does not support codewords"),
                  snd (fst (step "D2" w1)), snd (step "D2" w1))).
  { assert (E : fst (fst (step "D2" w1))
                = Raise (Exception "AWG5014 does not support codewords"))
      by (vm_compute; reflexivity).
    destruct (step "D2" w1) as [[r w] t]. cbn [fst snd] in *. rewrite E.
    reflexivity. }
  change ["D1"; "D2"] with (["D1"] ++ ["D2"]).
  rewrite (@program_awgs_stops_at_failure plain_driver (no_hdawg8 _) two_awgs
             seq_two ["D1"] [] "D2" _ idle_world _ _ _ _ _ _ H0 H1 H2).
  reflexivity.
Defined.

(** Generation fails for ["D2"], whose element uses a codeword, after the
    AWG file of ["D1"] has been sent to the instrument. *)
Lemma program_awgs_partial_upload :
  let run := @program_awgs plain_driver (no_hdawg8 _) two_awgs seq_two
               (Some ["D1"; "D2"]) idle_world in
  fst (fst run) = Raise (Exception "AWG5014 does not support codewords") /\
  existsb (sent_to "D1") (snd run) = true /\
  existsb (sent_to "D2") (snd run) = false.
Proof.
  repeat split; vm_compute; reflexivity.
Qed.

(** A legacy sequence of 8001 elements: the warning, and no file. *)
Lemma too_large_skips_upload_witness :
  exists tr,
    @AWG5014Pulsar_program_awg_old plain_driver two_awgs awg_D1
      (legacy_seq 1 8001) ∅ true idle_world = (Ret None, idle_world, tr) /\
    existsb is_uploadb tr = false.
Proof.
  eexists. split.
  - apply (proj1 (@too_large_skips_upload plain_driver) two_awgs awg_D1
             (legacy_seq 1 8001) ∅ true idle_world); reflexivity.
  - reflexivity.
Defined.

(** More than 8000 elements raise nothing.  The legacy path returns [None]
    and uploads nothing; the current path uploads a file whose table has
    8001 entries. *)
Lemma too_large_raises_nothing :
  let old := @AWG5014Pulsar_program_awg_old plain_driver two_awgs awg_D1
               (legacy_seq 1 8001) ∅ true idle_world in
  let new := @AWG5014Pulsar_program_awg plain_driver (no_hdawg8 _) two_awgs
               awg_D1 seq_long idle_world in
  fst (fst old) = Ret None /\
  existsb is_uploadb (snd old) = false /\
  match fst (fst new) with
  | Ret (Some file) =>
      (fun names : list string => Z.of_nat (length names)) <$> file.1.2
  | _ => []
  end = [8001%Z] /\
  existsb (sent_to "D1") (snd new) = true.
Proof.
  repeat split; vm_compute; reflexivity.
Qed.




(** * Further properties *)

(** ** Names *)

Lemma simplify_name_map (s : string) :
  simplify_name s
  = string_of_list_ascii (simplify_char <$> list_ascii_of_string s).
Proof. unfold simplify_name. rewrite simplify_loop_map. reflexivity. Qed.

Lemma simplify_char_idem (c : ascii) :
  simplify_char (simplify_char c) = simplify_char c.
Proof.
  unfold simplify_char at 2 3.
  destruct (isalnum c || Ascii.eqb c "-") eqn:Hc; [reflexivity|].
  unfold simplify_char. rewrite Hc. reflexivity.
Qed.

Lemma list_of_string_app (a b : string) :
  list_ascii_of_string (a +:+ b)
  = list_ascii_of_string a ++ list_ascii_of_string b.
Proof. induction a as [|c a IH]; simpl; [reflexivity|]. rewrite IH. reflexivity. Qed.

Lemma string_of_list_app (l k : list ascii) :
  string_of_list_ascii (l ++ k)
  = string_of_list_ascii l +:+ string_of_list_ascii k.
Proof. induction l as [|c l IH]; simpl; [reflexivity|]. rewrite IH. reflexivity. Qed.

(** Simplifying a name twice changes nothing more. *)
Theorem simplify_name_idempotent (s : string) :
  simplify_name (simplify_name s) = simplify_name s.
Proof.
  rewrite !simplify_name_map. rewrite list_ascii_of_string_of_list_ascii.
  rewrite <- list_fmap_compose. f_equal. apply list_fmap_ext.
  intros i c _. apply simplify_char_idem.
Qed.

(** [simplify_name] works character by character: the simplified
    concatenation is the concatenation of the simplified parts. *)
Theorem simplify_name_app (a b : string) :
  simplify_name (a +:+ b) = simplify_name a +:+ simplify_name b.
Proof.
  rewrite !simplify_name_map, list_of_string_app, fmap_app.
  apply string_of_list_app.
Qed.

Lemma simplify_char_not_alnum (c : ascii) : isalnum (simplify_char c) = false.
Proof.
  unfold simplify_char.
  destruct (isalnum c || Ascii.eqb c "-") eqn:Hc; [reflexivity|].
  apply orb_false_iff in Hc. apply Hc.
Qed.

Lemma simplify_name_not_alnum (s : string) :
  Forall (fun c => isalnum c = false) (list_ascii_of_string (simplify_name s)).
Proof.
  rewrite simplify_name_map, list_ascii_of_string_of_list_ascii.
  apply Forall_fmap, Forall_true. intros c. apply simplify_char_not_alnum.
Qed.

(** No letter and no digit of the element, channel or device names is left
    in the waveform name that [wf_name] returns. *)
Theorem wf_name_no_alnum (el chid chmid devname : string) (marker_ch : bool) :
  Forall (fun c => isalnum c = false)
    (list_ascii_of_string (wf_name el chid chmid devname marker_ch)).
Proof.
  unfold wf_name. destruct marker_ch; [|apply simplify_name_not_alnum].
  rewrite !list_of_string_app. repeat apply Forall_app_2.
  - apply simplify_name_not_alnum.
  - repeat constructor.
  - apply simplify_name_not_alnum.
Qed.

Lemma simplify_all_alnum (s : string) :
  all_alnum s = true ->
  simplify_name s
  = string_of_list_ascii (replicate (String.length s) "_"%char).
Proof.
  intros H. rewrite simplify_name_map. f_equal.
  rewrite <- length_list_of_string. unfold all_alnum in H.
  induction (list_ascii_of_string s) as [|c l IH]; [reflexivity|].
  simpl in H. apply andb_true_iff in H as [Hc Hl].
  cbn [fmap list_fmap length replicate]. rewrite <- IH by exact Hl.
  unfold simplify_char. rewrite Hc. reflexivity.
Qed.

(** Two elements whose names consist of letters and digits and have the
    same length get the same waveform name: the name tells them apart
    by nothing but its length. *)
Theorem wf_name_collision (el1 el2 chid chmid devname : string)
    (marker_ch : bool) :
  all_alnum el1 = true -> all_alnum el2 = true ->
  String.length el1 = String.length el2 ->
  wf_name el1 chid chmid devname marker_ch
  = wf_name el2 chid chmid devname marker_ch.
Proof.
  intros H1 H2 Hlen. unfold wf_name. cbv zeta.
  rewrite !simplify_name_app.
  rewrite (simplify_all_alnum el1 H1), (simplify_all_alnum el2 H2), Hlen.
  reflexivity.
Qed.

Lemma wf_name_collision_witness :
  wf_name "X180" "ch1" "ch1m" "dev8000" true
  = wf_name "Y090" "ch1" "ch1m" "dev8000" true.
Proof.
  apply wf_name_collision; reflexivity.
Defined.

(** ** Channel groups and marker channels *)

Lemma prefix3_app (p k : string) : String.length p = 3 -> prefix3 (p +:+ k) = p.
Proof.
  destruct p as [|a [|b [|c [|d p]]]]; try discriminate.
  intros _. destruct k; reflexivity.
Qed.

(** The marker channels of an AWG5014 get the ids [ch1m1], [ch1m2], ... in
    [_create_awg_parameters].  Such an id is not one of the ids of its own
    channel group, which are written with an underscore; the conversion
    [id_raw] of the setters and getters yields the one that is. *)
Theorem marker_id_outside_group (p k : string) :
  String.length p = 3 -> k = "m1" \/ k = "m2" ->
  ((p +:+ k) ∉ _awg5014_group_ids (p +:+ k)) /\
  (id_raw (p +:+ k) ∈ _awg5014_group_ids (p +:+ k)).
Proof.
  intros Hp Hk. unfold _awg5014_group_ids, id_raw.
  rewrite (prefix3_app p k Hp).
  destruct p as [|a [|b [|c [|d p]]]]; try discriminate.
  split.
  - intros Hin. destruct Hk as [-> | ->];
      repeat (apply elem_of_cons in Hin as [Hin|Hin]; [discriminate Hin|]);
      inversion Hin.
  - destruct Hk as [-> | ->]; cbn.
    + apply list_elem_of_further, list_elem_of_here.
    + do 2 apply list_elem_of_further. apply list_elem_of_here.
Qed.

Lemma marker_id_outside_group_witness :
  ("ch1m1" ∉ _awg5014_group_ids "ch1m1") /\
  (id_raw "ch1m1" ∈ _awg5014_group_ids "ch1m1").
Proof.
  apply (marker_id_outside_group "ch1" "m1"); [reflexivity | left; reflexivity].
Defined.

Section Packing2.
Context {D : Driver}.

Lemma for_acc_ext {A B} (l : list A) (f g : B -> A -> M B) :
  (forall b a, a ∈ l -> forall w, f b a w = g b a w) ->
  forall b w, for_acc l b f w = for_acc l b g w.
Proof.
  induction l as [|a l IH]; intros Hfg b w; [reflexivity|].
  cbn [for_acc]. unfold bind. rewrite (Hfg b a (list_elem_of_here _ _) w).
  destruct (g b a w) as [[[b'| |] w1] t1]; try reflexivity.
  rewrite IH; [reflexivity|].
  intros b0 a0 Ha0. apply Hfg. right. exact Ha0.
Qed.

(** The packed waveform of a channel group is made from the entries of the
    three ids of the group and from nothing else: waveforms stored under
    any other key, such as the id [ch1m1] of a marker channel, do not reach
    it (they only count for the length [maxlen]). *)
Theorem pack_group_ignores_other_keys (obj : instrument) (el : string)
    (cid_wfs cid_wfs' : gmap string waveform) (maxlen : extlen) (grp : string)
    (w : World) :
  (forall cid, cid ∈ _awg5014_group_ids grp -> cid_wfs !! cid = cid_wfs' !! cid) ->
  pack_group obj el cid_wfs maxlen grp w = pack_group obj el cid_wfs' maxlen grp w.
Proof.
  intros Hsame. unfold pack_group, pad_group, bind.
  rewrite (for_acc_ext (_awg5014_group_ids grp)
             (pad_channel obj el cid_wfs maxlen)
             (pad_channel obj el cid_wfs' maxlen)); [reflexivity|].
  intros acc cid Hcid w0. unfold pad_channel.
  destruct maxlen as [|n]; [reflexivity|].
  pose proof (Hsame cid Hcid) as E. unfold waveform in *. rewrite E.
  reflexivity.
Qed.

End Packing2.

(** Marker samples stored under [ch1m1] leave the packed waveform of the
    group [ch1] as it is. *)
Lemma pack_group_ignores_other_keys_witness :
  @pack_group plain_driver awg_D1 "A" (<["ch1m1" := [1; 1; 1]%Z]> wf_pulse)
    (Len 3) "ch1" idle_world
  = @pack_group plain_driver awg_D1 "A" wf_pulse (Len 3) "ch1" idle_world.
Proof.
  apply pack_group_ignores_other_keys.
  intros cid Hcid. apply lookup_insert_ne. intros <-.
  repeat (apply elem_of_cons in Hcid as [Hcid|Hcid]; [discriminate Hcid|]).
  inversion Hcid.
Defined.

(** ** Starting and stopping, all cases *)

Section StartStop.
Context {D : Driver}.

Lemma tick_tick (a b : N) (w : World) : tick b (tick a w) = tick (a + b) w.
Proof. unfold tick. simpl. f_equal. lia. Qed.

Lemma tick_0 (w : World) : tick 0 w = w.
Proof. destruct w. unfold tick. simpl. f_equal. lia. Qed.

Lemma for_start (p : Pulsar) (l : list string) :
  (forall awg, awg ∈ l -> is_Some (instruments p !! awg)) ->
  forall w,
    for_ l (_start_awg p) w
    = (Ret tt, tick (start_cost * N.of_nat (length l)) w,
       (fun awg => Call awg CStart) <$> l).
Proof.
  induction l as [|a l IH]; intros Hl w.
  - cbn [for_ length]. replace (start_cost * N.of_nat 0)%N with 0%N by lia.
    rewrite tick_0. reflexivity.
  - cbn [for_]. erewrite bind_ret_eq;
      [ | apply start_awg_eq, Hl; left
        | apply IH; intros b Hb; apply Hl; right; exact Hb ].
    rewrite tick_tick. cbn [length fmap list_fmap app].
    do 2 f_equal. f_equal. lia.
Qed.

(** Without a master AWG, [start] starts every AWG that is active and has
    waveforms, each once, and does nothing else: no AWG is polled and no
    time is spent waiting. *)
Theorem start_without_master (fuel : nat) (p : Pulsar) (w : World) :
  master_awg p = None ->
  (forall awg, awg ∈ awgs p -> is_Some (instruments p !! awg)) ->
  start fuel p w
  = (Ret tt,
     tick (start_cost
           * N.of_nat (length (elements (active_set p w ∩ with_wfs w)))) w,
     (fun awg => Call awg CStart) <$> elements (active_set p w ∩ with_wfs w)).
Proof.
  intros Hm Hreg. unfold start, bind, awgs_with_waveforms, active_awgs.
  rewrite Hm. cbv zeta. rewrite for_start; [reflexivity|].
  intros a Ha. apply Hreg. apply elem_of_elements in Ha.
  apply elem_of_intersection in Ha as [Ha _].
  apply elem_of_filter in Ha as [_ Ha]. exact Ha.
Qed.

Lemma for_stop_unknown (p : Pulsar) (w : World) (l : list string) :
  (exists awg, awg ∈ l /\ instruments p !! awg = None) ->
  exists pre bad post,
    l = pre ++ bad :: post /\ instruments p !! bad = None /\
    (forall awg, awg ∈ pre -> is_Some (instruments p !! awg)) /\
    for_ l (_stop_awg p) w
    = (Raise (KeyError bad), w, (fun awg => Call awg CStop) <$> pre).
Proof.
  induction l as [|a l IH]; intros (x & Hx & Hnone); [inversion Hx|].
  destruct (instruments p !! a) as [c|] eqn:Ha.
  - destruct IH as (pre & bad & post & -> & Hbad & Hpre & Hrun).
    { exists x. split; [|exact Hnone].
      apply elem_of_cons in Hx as [->|Hx]; [congruence | exact Hx]. }
    exists (a :: pre), bad, post. split; [reflexivity|]. split; [exact Hbad|].
    split.
    + intros b Hb. apply elem_of_cons in Hb as [->|Hb]; [eauto | auto].
    + cbn [for_]. erewrite bind_ret_eq;
        [ | apply stop_awg_eq; eauto | exact Hrun ].
      reflexivity.
  - exists [], a, l. split; [reflexivity|]. split; [exact Ha|].
    split; [intros b Hb; inversion Hb|].
    cbn [for_]. unfold bind, _stop_awg, bind, AWG_obj. rewrite Ha. reflexivity.
Qed.

(** When an AWG that is active and has waveforms does not exist as an
    instrument, [stop] ends with the [KeyError] of the instrument lookup at
    the first such AWG it reaches: the AWGs before it have been stopped,
    that one and the ones after it have not. *)
Theorem stop_unknown_instrument (p : Pulsar) (w : World) :
  (exists awg, awg ∈ active_set p w ∩ with_wfs w /\ instruments p !! awg = None) ->
  exists pre bad post,
    elements (active_set p w ∩ with_wfs w) = pre ++ bad :: post /\
    instruments p !! bad = None /\
    stop p w = (Raise (KeyError bad), w, (fun awg => Call awg CStop) <$> pre).
Proof.
  intros (x & Hx & Hnone).
  destruct (for_stop_unknown p w (elements (active_set p w ∩ with_wfs w)))
    as (pre & bad & post & Hl & Hbad & _ & Hrun).
  { exists x. split; [apply elem_of_elements; exact Hx | exact Hnone]. }
  exists pre, bad, post. split; [exact Hl|]. split; [exact Hbad|].
  unfold stop, bind, awgs_with_waveforms, active_awgs. cbv zeta.
  rewrite Hrun. reflexivity.
Qed.

Existing Instance any_world_preorder.

Lemma wait_running_no_start (p : Pulsar) (awg master : string) (tstart : N)
    (fuel : nat) :
  always any_world (fun e => e <> Call master CStart) (fun _ => True)
    (wait_running fuel p awg tstart).
Proof.
  set (Ev := fun e : event => e <> Call master CStart).
  induction fuel as [|fuel IH]; cbn [wait_running].
  - intros w r w' tr [= <- <- <-]. repeat split; auto.
  - unfold _is_awg_running, time_sleep.
    eapply (always_bind any_world Ev (fun _ => True));
      [apply (always_time_time any_world Ev)|]. intros t _.
    destruct (tstart + 10000 <? t)%N;
      [apply (always_ret any_world Ev); exact I|].
    eapply (always_bind any_world Ev (fun _ => True)).
    + always_go ltac:(first [exact I | discriminate | (intros; exact I)]).
    + intros running _. destruct running;
        [apply (always_ret any_world Ev); exact I|].
      eapply (always_bind any_world Ev (fun _ => True)); [|intros ? _; exact IH].
      always_go ltac:(first [exact I | discriminate | (intros; exact I)]).
Qed.

(** Whatever happens in [start] (a time-out, an unknown or unsupported
    instrument), the master AWG is started only by the last step: a run
    that does not return has not started it, and a run that returns has
    started it exactly once, at the very end. *)
Theorem master_started_last_or_never (fuel : nat) (p : Pulsar) (master : string)
    (w w' : World) (r : outcome unit) (tr : list event) :
  master_awg p = Some master ->
  start fuel p w = (r, w', tr) ->
  if returns r
  then exists tr0, tr = tr0 ++ [Call master CStart] /\ Call master CStart ∉ tr0
  else Call master CStart ∉ tr.
Proof.
  intros Hm Hrun. set (Ev := fun e : event => e <> Call master CStart).
  assert (Hnot : forall l : list event, Forall Ev l -> Call master CStart ∉ l).
  { intros l Hl Hin. rewrite Forall_forall in Hl. exact (Hl _ Hin eq_refl). }
  unfold start in Hrun.
  apply bind_inv in Hrun as
    [(wfs & w0 & t0 & t0' & Hwfs & Hrun & ->)
    |[(e & Hwfs & _)|[Hwfs _]]]; [|discriminate Hwfs..].
  injection Hwfs as <- <- <-.
  apply bind_inv in Hrun as
    [(active & wa & ta & ta' & Hact & Hrun & ->)
    |[(e & Hact & _)|[Hact _]]]; [|discriminate Hact..].
  injection Hact as <- <- <-. cbv zeta in Hrun. rewrite Hm in Hrun.
  rewrite !app_nil_l.
  set (used := elements (active_set p w ∩ with_wfs w)) in Hrun.
  assert (H1 : always any_world Ev (fun _ => True)
            (for_ used (fun awg =>
               if decide (awg <> master) then _start_awg p awg else ret tt))).
  { apply (always_for any_world Ev). intros awg _.
    destruct (decide (awg <> master)) as [Hne|_];
      [|apply (always_ret any_world Ev); exact I].
    intros w1 r1 w1' tr1 Heq. unfold _start_awg, AWG_obj, bind in Heq.
    destruct (instruments p !! awg); cbv [ret emit elapse raise] in Heq;
      simpl in Heq; injection Heq as <- <- <-; repeat split; auto.
    repeat constructor. intros [= ?]. congruence. }
  assert (H2 : forall tstart,
            always any_world Ev (fun _ => True)
              (for_ used (fun awg =>
                 if decide (awg = master) then ret tt
                 else bind (wait_running fuel p awg tstart) (fun good =>
                        if good then ret tt else raise (timeout_error awg))))).
  { intros tstart. apply (always_for any_world Ev). intros awg _.
    destruct (decide (awg = master));
      [apply (always_ret any_world Ev); exact I|].
    eapply (always_bind any_world Ev (fun _ => True));
      [apply wait_running_no_start|].
    intros good _. destruct good;
      [apply (always_ret any_world Ev); exact I
      |apply (always_raise any_world Ev)]. }
  apply bind_inv in Hrun as
    [(u1 & w1 & t1 & t1' & Hf1 & Hrun & ->)
    |[(e & Hf1 & ->)|[Hf1 ->]]];
    [ | apply Hnot, (H1 _ _ _ _ Hf1) | apply Hnot, (H1 _ _ _ _ Hf1) ].
  destruct (H1 _ _ _ _ Hf1) as (_ & Ht1 & _).
  apply bind_inv in Hrun as
    [(tstart & w1' & t & t' & Htime & Hrun & ->)
    |[(e & Htime & _)|[Htime _]]]; [|discriminate Htime..].
  injection Htime as <- <- <-. rewrite app_nil_l.
  apply bind_inv in Hrun as
    [(u2 & w2 & t2 & t2' & Hf2 & Hrun & ->)
    |[(e & Hf2 & ->)|[Hf2 ->]]].
  - destruct (H2 _ _ _ _ _ Hf2) as (_ & Ht2 & _).
    unfold _start_awg, AWG_obj, bind in Hrun.
    destruct (instruments p !! master) as [c|];
      cbv [ret emit elapse raise] in Hrun; simpl in Hrun;
      injection Hrun as <- <- <-; cbn [returns].
    + exists (t1 ++ t2). split; [rewrite app_assoc; reflexivity|].
      apply Hnot, Forall_app. split; assumption.
    + rewrite app_nil_r. apply Hnot, Forall_app. split; assumption.
  - cbn [returns]. destruct (H2 _ _ _ _ _ Hf2) as (_ & Ht2 & _).
    apply Hnot, Forall_app. split; assumption.
  - cbn [returns]. destruct (H2 _ _ _ _ _ Hf2) as (_ & Ht2 & _).
    apply Hnot, Forall_app. split; assumption.
Qed.

End StartStop.

Lemma start_without_master_witness :
  exists w',
    @start demo_driver 0 free_pulsar demo_world
    = (Ret tt, w',
       (fun awg => Call awg CStart)
         <$> elements (active_set free_pulsar demo_world ∩ with_wfs demo_world)).
Proof.
  eexists. apply start_without_master; [reflexivity|].
  intros awg Hin.
  destruct (demo_pulsar_supported awg (or_introl Hin)) as [H|H];
    unfold free_pulsar; cbn [instruments]; unfold demo_pulsar in H;
    cbn [instruments] in H; rewrite H; eexists; reflexivity.
Defined.

Lemma stop_unknown_instrument_witness :
  exists pre bad post,
    elements (active_set ghost_pulsar ghost_world ∩ with_wfs ghost_world)
      = pre ++ bad :: post /\
    instruments ghost_pulsar !! bad = None /\
    @stop demo_driver ghost_pulsar ghost_world
    = (Raise (KeyError bad), ghost_world, (fun awg => Call awg CStop) <$> pre).
Proof.
  apply stop_unknown_instrument. exists "G". split; [|reflexivity].
  apply elem_of_intersection. split.
  - apply elem_of_filter. split; [reflexivity|].
    apply elem_of_union_r, elem_of_singleton. reflexivity.
  - apply elem_of_union_r, elem_of_singleton. reflexivity.
Defined.

(** The slave ["S2"] never runs: the master ["M"] is not started. *)
Lemma master_started_last_or_never_witness :
  Call "M" CStart ∉ snd (@start stuck_driver 200 demo_pulsar demo_world).
Proof.
  assert (Hr : returns (fst (fst (@start stuck_driver 200 demo_pulsar
                                    demo_world))) = false)
    by (vm_compute; reflexivity).
  destruct (@start stuck_driver 200 demo_pulsar demo_world) as [[r w'] tr] eqn:Heq.
  pose proof (@master_started_last_or_never stuck_driver 200 demo_pulsar "M"
                demo_world w' r tr eq_refl Heq) as H.
  cbn [fst snd] in *. rewrite Hr in H. exact H.
Defined.

(** ** Sequences that [AWG5014Pulsar._program_awg] refuses *)

Section ProgramErrors.
Context {D : Driver}.
Variable hdawg8_body : instrument -> Sequence -> M unit.

Lemma collect_elements_fail
    (l : list ((nat * string) * gmap (option nat) (gmap string waveform))) :
  Exists (fun entry => has_codewords entry.2 = true) l ->
  forall acc w,
    for_acc l acc collect_element w
    = (Raise (Exception "AWG5014 does not support codewords"), w, []).
Proof.
  induction l as [|entry l IH]; intros Hex acc w; [inversion Hex|].
  cbn [for_acc]. unfold collect_element at 1. fold (has_codewords entry.2).
  destruct (has_codewords entry.2) eqn:Hcw; [reflexivity|].
  apply Exists_cons in Hex as [Hex|Hex]; [congruence|].
  unfold has_codewords in Hcw. apply orb_false_iff in Hcw as [_ Hnone].
  apply bool_decide_eq_false in Hnone.
  destruct (entry.2 !! None) as [c0|] eqn:Hc0; [|contradiction].
  erewrite bind_ret_eq; [ | reflexivity | apply IH, Hex ]. reflexivity.
Qed.

Lemma collect_elements_outcome
    (l : list ((nat * string) * gmap (option nat) (gmap string waveform))) :
  forall acc w,
    (exists acc', for_acc l acc collect_element w = (Ret acc', w, [])) \/
    for_acc l acc collect_element w
    = (Raise (Exception "AWG5014 does not support codewords"), w, []).
Proof.
  induction l as [|entry l IH]; intros acc w; [left; eexists; reflexivity|].
  cbn [for_acc]. unfold collect_element at 1 3. fold (has_codewords entry.2).
  destruct (has_codewords entry.2) eqn:Hcw; [right; reflexivity|].
  unfold has_codewords in Hcw. apply orb_false_iff in Hcw as [_ Hnone].
  apply bool_decide_eq_false in Hnone.
  destruct (entry.2 !! None) as [c0|] eqn:Hc0; [|contradiction].
  destruct (IH (<[entry.1 := c0]> acc) w) as [[acc' Hrun]|Hrun].
  - left. exists acc'. erewrite bind_ret_eq; [ | reflexivity | exact Hrun ].
    reflexivity.
  - right. erewrite bind_ret_eq; [ | reflexivity | exact Hrun ]. reflexivity.
Qed.

Lemma collect_segment_outcome (obj : instrument) acc (segment : string * Segment)
    (w : World) :
  (exists acc' w',
     collect_segment obj acc segment w = (Ret acc', w', []) /\
     (w' = w \/ w' = added (name obj) w)) \/
  collect_segment obj acc segment w
  = (Raise (Exception "AWG5014 does not support codewords"),
     added (name obj) w, []).
Proof.
  unfold collect_segment.
  destruct (seg_waveforms segment.2 !! name obj) as [wfs|].
  - destruct (collect_elements_outcome (map_to_list wfs) ∅ (added (name obj) w))
      as [[el_wfs Hrun]|Hrun].
    + left. exists (acc.1 ++ [el_wfs], true), (added (name obj) w). split; [|auto].
      erewrite bind_ret_eq; [ | reflexivity | ].
      2:{ erewrite bind_ret_eq; [ | exact Hrun | reflexivity ]. reflexivity. }
      reflexivity.
    + right. erewrite bind_ret_eq; [ | reflexivity | ].
      2:{ apply bind_raise_eq. exact Hrun. }
      reflexivity.
  - left. exists (acc.1 ++ [∅], acc.2), w. split; [reflexivity | auto].
Qed.

Lemma collect_segment_fail (obj : instrument) acc (segment : string * Segment)
    (w : World) wfs key cws :
  seg_waveforms segment.2 !! name obj = Some wfs ->
  wfs !! key = Some cws -> has_codewords cws = true ->
  collect_segment obj acc segment w
  = (Raise (Exception "AWG5014 does not support codewords"),
     added (name obj) w, []).
Proof.
  intros Hwfs Hkey Hcw. unfold collect_segment. rewrite Hwfs.
  erewrite bind_ret_eq; [ | reflexivity | ].
  2:{ apply bind_raise_eq. apply collect_elements_fail.
      apply Exists_exists. exists (key, cws). split; [|exact Hcw].
      apply elem_of_map_to_list. exact Hkey. }
  reflexivity.
Qed.

Lemma collect_fail (obj : instrument) (segs : list (string * Segment)) :
  (exists segment wfs key cws,
     segment ∈ segs /\ seg_waveforms segment.2 !! name obj = Some wfs /\
     wfs !! key = Some cws /\ has_codewords cws = true) ->
  forall acc w,
    w = added (name obj) w \/ True ->
    for_acc segs acc (collect_segment obj) w
    = (Raise (Exception "AWG5014 does not support codewords"),
       added (name obj) w, []).
Proof.
  induction segs as [|s segs IH];
    intros (segment & wfs & key & cws & Hin & Hwfs & Hkey & Hcw) acc w _;
    [inversion Hin|].
  cbn [for_acc].
  destruct (collect_segment_outcome obj acc s w)
    as [(acc' & w' & Hrun & Hw')|Hrun].
  - apply elem_of_cons in Hin as [->|Hin].
    + rewrite (collect_segment_fail obj acc s w wfs key cws Hwfs Hkey Hcw) in Hrun.
      discriminate Hrun.
    + erewrite bind_ret_eq; [ | exact Hrun | apply IH; [|right; exact I] ].
      * destruct Hw' as [-> | ->]; [|rewrite added_idem]; reflexivity.
      * exists segment, wfs, key, cws. auto.
  - apply bind_raise_eq. exact Hrun.
Qed.

(** An element with codewords (more than one entry in its dictionary, or
    no entry ['no_codeword']) makes [_program_awg] raise before any driver
    call and before anything is logged; the AWG has by then been put into
    the set of AWGs with waveforms, and stays there. *)
Theorem codewords_rejected (c : PulsarCfg) (obj : instrument)
    (sequence : Sequence) (w : World) (segment : string * Segment)
    (wfs : gmap (nat * string) (gmap (option nat) (gmap string waveform)))
    (key : nat * string) (cws : gmap (option nat) (gmap string waveform)) :
  cls obj = ClsAWG5014 ->
  segment ∈ segments sequence ->
  seg_waveforms segment.2 !! name obj = Some wfs ->
  wfs !! key = Some cws -> has_codewords cws = true ->
  AWG5014Pulsar_program_awg hdawg8_body c obj sequence w
  = (Raise (Exception "AWG5014 does not support codewords"),
     added (name obj) w, []).
Proof.
  intros Hcls Hin Hwfs Hkey Hcw.
  unfold AWG5014Pulsar_program_awg. rewrite Hcls. unfold program_5014_body.
  apply bind_raise_eq. apply collect_fail; [|right; exact I].
  exists segment, wfs, key, cws. auto.
Qed.

Lemma program_5014_until_names (obj : instrument) (sequence : Sequence)
    (w : World) :
  plain_elements (name obj) (segments sequence) ->
  (exists segment, segment ∈ segments sequence /\
                   is_Some (seg_waveforms segment.2 !! name obj)) ->
  exists seg_wfs pw warns,
    Forall is_warning warns /\
    for_acc (segments sequence) ([], false) (collect_segment obj) w
    = (Ret (seg_wfs, true), added (name obj) w, []) /\
    pack_all obj seg_wfs (used_grps seg_wfs) (added (name obj) w)
    = (Ret pw, added (name obj) w, warns).
Proof.
  intros Hplain Hsome.
  destruct (collect_segments_success obj (segments sequence) w
              (plain_no_codewords _ _ Hplain))
    as (seg_wfs & has & Hcollect & HF & Hhas).
  assert (has = true) as -> by (apply Hhas, Hsome).
  destruct (pack_all_warns obj seg_wfs (used_grps seg_wfs) (added (name obj) w))
    as (pw & warns & Hpack & Hwarn & _).
  { intros g. apply used_grps_prefix. }
  { eapply collected_nonempty; eassumption. }
  exists seg_wfs, pw, warns. auto.
Qed.

(** An AWG that has waveforms but no entry in [sequence.awg_sequence] is not
    programmed: after the warnings of the packing loop and the message that
    programming begins, the lookup raises a [KeyError] with the name of the
    AWG, and no driver call has been made. *)
Theorem awg_sequence_missing (c : PulsarCfg) (obj : instrument)
    (sequence : Sequence) (w : World) :
  cls obj = ClsAWG5014 ->
  plain_elements (name obj) (segments sequence) ->
  (exists segment, segment ∈ segments sequence /\
                   is_Some (seg_waveforms segment.2 !! name obj)) ->
  awg_sequence sequence !! name obj = None ->
  exists warns,
    Forall is_warning warns /\
    AWG5014Pulsar_program_awg hdawg8_body c obj sequence w
    = (Raise (KeyError (name obj)), added (name obj) w,
       warns ++ [programming_info (name obj) sequence]).
Proof.
  intros Hcls Hplain Hsome Hnone.
  destruct (program_5014_until_names obj sequence w Hplain Hsome)
    as (seg_wfs & pw & warns & Hwarn & Hcollect & Hpack).
  exists warns. split; [exact Hwarn|].
  unfold AWG5014Pulsar_program_awg. rewrite Hcls.
  unfold program_5014_body, program_5014_rest.
  assert (Hget : forall w0,
    getitem (awg_sequence sequence) (name obj) w0
    = (@Raise (list (string * string)) (KeyError (name obj)), w0, [])).
  { intros w0. unfold getitem. rewrite Hnone. reflexivity. }
  erewrite bind_ret_eq; [ | exact Hcollect | ].
  2:{ cbn [fst snd negb].
      erewrite bind_ret_eq; [ | exact Hpack | ].
      2:{ erewrite bind_ret_eq; [ | reflexivity | ].
          2:{ unfold build_wfname_l.
              destruct (used_grps seg_wfs) as [|g grps].
              - cbn [for_acc]. erewrite bind_ret_eq; [ | reflexivity | ].
                2:{ apply bind_raise_eq. apply Hget. }
                reflexivity.
              - cbn [for_acc]. apply bind_raise_eq, bind_raise_eq, bind_raise_eq.
                apply Hget. }
          reflexivity. }
      reflexivity. }
  reflexivity.
Qed.

(** An AWG that has waveforms but an empty list in [sequence.awg_sequence]
    is not programmed either: the assignment [goto_l[-1] = 1] to the empty
    list raises an [IndexError] before any driver call. *)
Theorem awg_sequence_empty (c : PulsarCfg) (obj : instrument)
    (sequence : Sequence) (w : World) :
  cls obj = ClsAWG5014 ->
  plain_elements (name obj) (segments sequence) ->
  (exists segment, segment ∈ segments sequence /\
                   is_Some (seg_waveforms segment.2 !! name obj)) ->
  awg_sequence sequence !! name obj = Some [] ->
  exists warns,
    Forall is_warning warns /\
    AWG5014Pulsar_program_awg hdawg8_body c obj sequence w
    = (Raise IndexError, added (name obj) w,
       warns ++ [programming_info (name obj) sequence]).
Proof.
  intros Hcls Hplain Hsome Hels.
  destruct (program_5014_until_names obj sequence w Hplain Hsome)
    as (seg_wfs & pw & warns & Hwarn & Hcollect & Hpack).
  exists warns. split; [exact Hwarn|].
  unfold AWG5014Pulsar_program_awg. rewrite Hcls.
  unfold program_5014_body, program_5014_rest.
  erewrite bind_ret_eq; [ | exact Hcollect | ].
  2:{ cbn [fst snd negb].
      erewrite bind_ret_eq; [ | exact Hpack | ].
      2:{ erewrite bind_ret_eq; [ | reflexivity | ].
          2:{ erewrite bind_ret_eq;
                [ | apply (build_wfname_l_eq obj sequence [] _ Hels) | ].
              2:{ erewrite bind_ret_eq; [ | apply getitem_eq, Hels | ].
                  2:{ apply bind_raise_eq. reflexivity. }
                  reflexivity. }
              reflexivity. }
          reflexivity. }
      reflexivity. }
  reflexivity.
Qed.

End ProgramErrors.

Lemma seq_one_has_waveforms :
  exists segment, segment ∈ segments seq_one /\
                  is_Some (seg_waveforms segment.2 !! "D1").
Proof.
  eexists. split; [apply list_elem_of_here|]. eexists. reflexivity.
Defined.

(** The element of ["D2"] in [seq_two] carries a codeword. *)
Lemma codewords_rejected_witness :
  @AWG5014Pulsar_program_awg plain_driver (no_hdawg8 _) two_awgs awg_D2
    seq_two idle_world
  = (Raise (Exception "AWG5014 does not support codewords"),
     added "D2" idle_world, []).
Proof.
  apply (@codewords_rejected plain_driver (no_hdawg8 _) two_awgs awg_D2 seq_two
           idle_world
           ("seg1",
            {| seg_waveforms :=
                 {["D1" := {[(0, "A") := {[None := wf_pulse]}]};
                   "D2" := {[(0, "A") := {[None := wf_pulse; Some 1 := wf_pulse]}]}]} |})
           {[(0, "A") := {[None := wf_pulse; Some 1 := wf_pulse]}]}
           (0, "A") {[None := wf_pulse; Some 1 := wf_pulse]}).
  - reflexivity.
  - apply list_elem_of_here.
  - vm_compute. reflexivity.
  - vm_compute. reflexivity.
  - vm_compute. reflexivity.
Defined.

Lemma awg_sequence_missing_witness :
  exists warns,
    Forall is_warning warns /\
    @AWG5014Pulsar_program_awg plain_driver (no_hdawg8 _) two_awgs awg_D1
      seq_no_entry idle_world
    = (Raise (KeyError "D1"), added "D1" idle_world,
       warns ++ [programming_info "D1" seq_no_entry]).
Proof.
  apply (@awg_sequence_missing plain_driver (no_hdawg8 _) two_awgs awg_D1
           seq_no_entry idle_world).
  - reflexivity.
  - exact seq_one_plain.
  - exact seq_one_has_waveforms.
  - reflexivity.
Defined.

Lemma awg_sequence_empty_witness :
  exists warns,
    Forall is_warning warns /\
    @AWG5014Pulsar_program_awg plain_driver (no_hdawg8 _) two_awgs awg_D1
      seq_empty_entry idle_world
    = (Raise IndexError, added "D1" idle_world,
       warns ++ [programming_info "D1" seq_empty_entry]).
Proof.
  apply (@awg_sequence_empty plain_driver (no_hdawg8 _) two_awgs awg_D1
           seq_empty_entry idle_world).
  - reflexivity.
  - exact seq_one_plain.
  - exact seq_one_has_waveforms.
  - reflexivity.
Defined.

(** ** [program_awgs] and the state of the pulsar *)

Section ProgramAwgsState.
Context {D : Driver}.
Variable hdawg8_body : instrument -> Sequence -> M unit.

#[local] Instance touches_preorder (awg : string) : PreOrder (touches awg).
Proof.
  split.
  - intros w. unfold touches. repeat split; auto. apply union_subseteq_r.
  - intros w1 w2 w3 (Ha1 & Hp1 & Hl1 & Hu1) (Ha2 & Hp2 & Hl2 & Hu2).
    unfold touches. repeat split; try congruence.
    + etransitivity; eassumption.
    + intros x Hx. apply Hu2 in Hx. apply elem_of_union in Hx as [Hx|Hx].
      * apply elem_of_union. left. exact Hx.
      * apply Hu1, Hx.
Qed.

Ltac side_touches :=
  first [ exact I
        | (intros; unfold touches; simpl; repeat split;
           first [reflexivity | apply union_subseteq_r]) ].

Lemma program_5014_body_touches (c : PulsarCfg) (obj : instrument)
    (sequence : Sequence) :
  always (touches (name obj)) (fun _ => True) (fun _ => True)
    (program_5014_body c obj sequence).
Proof.
  unfold program_5014_body, program_5014_rest, collect_segment,
    collect_element, pack_all,
    pack_segment, pack_element, pack_group, pad_group, pad_channel,
    build_wfname_l, set_last, upload, restore_offsets, restore_pars,
    time_sleep, _awg5014_activate_channels.
  always_go side_touches.
Qed.

Lemma has_waveforms_spec (awg : string) (sequence : Sequence) :
  has_waveforms awg sequence = true <->
  exists segment, segment ∈ segments sequence /\
                  is_Some (seg_waveforms segment.2 !! awg).
Proof.
  unfold has_waveforms. rewrite existsb_exists. split.
  - intros (s & Hs & Hb). exists s. split; [apply list_elem_of_In; exact Hs|].
    apply bool_decide_eq_true in Hb. exact Hb.
  - intros (s & Hs & Hb). exists s. split; [apply list_elem_of_In; exact Hs|].
    apply bool_decide_eq_true. exact Hb.
Qed.

Lemma has_waveforms_false (awg : string) (sequence : Sequence) :
  has_waveforms awg sequence = false ->
  forall segment, segment ∈ segments sequence ->
                  seg_waveforms segment.2 !! awg = None.
Proof.
  intros Hf segment Hin.
  destruct (seg_waveforms segment.2 !! awg) as [wfs|] eqn:Hwfs; [|reflexivity].
  assert (Ht : has_waveforms awg sequence = true).
  { apply has_waveforms_spec. exists segment. rewrite Hwfs. eauto. }
  congruence.
Qed.

(** One step of the loop of [program_awgs] for an AWG5014. *)
Lemma program_one_awg (c : PulsarCfg) (sequence : Sequence) (awg : string)
    (w w' : World) (r : outcome unit) (tr : list event) :
  instruments (pulsar c) !! awg = Some ClsAWG5014 ->
  bind (AWG_obj (pulsar c) awg)
    (fun obj => Pulsar_program_awg hdawg8_body c obj sequence) w = (r, w', tr) ->
  touches awg w w' /\
  (has_waveforms awg sequence = false -> with_wfs w' = with_wfs w) /\
  (r = Ret tt -> has_waveforms awg sequence = true -> awg ∈ with_wfs w').
Proof.
  intros Hcls Hrun. unfold AWG_obj in Hrun. rewrite Hcls in Hrun.
  unfold bind, ret in Hrun.
  set (obj := {| name := awg; cls := ClsAWG5014 |}) in Hrun.
  unfold Pulsar_program_awg, AWG5014Pulsar_program_awg in Hrun.
  cbn [cls obj] in Hrun.
  destruct (program_5014_body c obj sequence w) as [[r0 w0] t0] eqn:Hbody.
  assert (Hw : w' = w0 /\ (r = Ret tt -> exists a, r0 = Ret a)).
  { destruct r0 as [a|e|]; [|destruct e|]; injection Hrun as <- <- <-;
      (split; [reflexivity|]); try discriminate. intros _. eauto. }
  destruct Hw as [-> Hret]. split; [|split].
  - exact (proj1 (program_5014_body_touches c obj sequence _ _ _ _ Hbody)).
  - intros Hf. rewrite (program_5014_body_none c obj sequence w) in Hbody
      by (apply has_waveforms_false, Hf).
    destruct (instruments (pulsar c) !! name obj); injection Hbody as _ <- _;
      reflexivity.
  - intros Hr Ht. destruct (Hret Hr) as [a ->].
    unfold program_5014_body in Hbody.
    apply bind_inv in Hbody
      as [(acc & w1 & t1 & t2 & H1 & H2 & ->) | [(e & _ & [=]) | (_ & [=])]].
    assert (Hin : name obj ∈ with_wfs w1).
    { eapply collect_adds; [exact H1|]. apply has_waveforms_spec, Ht. }
    exact (proj1 (program_5014_rest_grows c obj sequence acc _ _ _ _ H2) _ Hin).
Qed.

Lemma program_loop (c : PulsarCfg) (sequence : Sequence) (l : list string) :
  (forall awg, awg ∈ l -> instruments (pulsar c) !! awg = Some ClsAWG5014) ->
  forall (w w' : World) (r : outcome unit) (tr : list event),
    for_ l (fun awg =>
      bind (AWG_obj (pulsar c) awg)
        (fun obj => Pulsar_program_awg hdawg8_body c obj sequence)) w
    = (r, w', tr) ->
    awg_active w' = awg_active w /\ prequeried w' = prequeried w /\
    with_wfs w ⊆ with_wfs w' /\
    (forall a, a ∈ with_wfs w' ->
       a ∈ with_wfs w \/ (a ∈ l /\ has_waveforms a sequence = true)) /\
    (r = Ret tt ->
     forall a, a ∈ l -> has_waveforms a sequence = true -> a ∈ with_wfs w').
Proof.
  induction l as [|awg l IH]; intros Hcls w w' r tr Hrun.
  - injection Hrun as <- <- <-. repeat split; auto.
    intros _ a Ha. inversion Ha.
  - cbn [for_] in Hrun.
    assert (Hstep : forall r1 w1 t1,
      bind (AWG_obj (pulsar c) awg)
        (fun obj => Pulsar_program_awg hdawg8_body c obj sequence) w
      = (r1, w1, t1) ->
      awg_active w1 = awg_active w /\ prequeried w1 = prequeried w /\
      with_wfs w ⊆ with_wfs w1 /\
      (forall a, a ∈ with_wfs w1 ->
         a ∈ with_wfs w \/ (a = awg /\ has_waveforms a sequence = true)) /\
      (r1 = Ret tt -> has_waveforms awg sequence = true -> awg ∈ with_wfs w1)).
    { intros r1 w1 t1 H1.
      destruct (program_one_awg c sequence awg w w1 r1 t1
                  (Hcls awg (list_elem_of_here _ _)) H1)
        as ((Ha & Hp & Hl & Hu) & Hnone & Hadd).
      repeat split; auto.
      intros a Ha1. destruct (has_waveforms awg sequence) eqn:Hh.
      - apply Hu in Ha1. apply elem_of_union in Ha1 as [Ha1|Ha1]; [|auto].
        apply elem_of_singleton in Ha1 as ->. auto.
      - left. rewrite <- (Hnone eq_refl). exact Ha1. }
    apply bind_inv in Hrun
      as [(u & w1 & t1 & t2 & H1 & H2 & ->) | [(e & H1 & ->) | (H1 & ->)]].
    + destruct (Hstep _ _ _ H1) as (Ha1 & Hp1 & Hl1 & Hu1 & Hadd1).
      destruct (IH (fun a Ha => Hcls a (list_elem_of_further _ _ _ Ha))
                  w1 w' r t2 H2) as (Ha2 & Hp2 & Hl2 & Hu2 & Hadd2).
      destruct u. split; [congruence|]. split; [congruence|].
      split; [etransitivity; eassumption|]. split.
      * intros a Ha. destruct (Hu2 a Ha) as [Hw1|[Hin Hh]].
        -- destruct (Hu1 a Hw1) as [Hw|[-> Hh]]; [auto|].
           right. split; [left | exact Hh].
        -- right. split; [right; exact Hin | exact Hh].
      * intros Hr a Ha Hh. apply elem_of_cons in Ha as [->|Ha].
        -- apply Hl2, Hadd1; auto.
        -- apply Hadd2; auto.
    + destruct (Hstep _ _ _ H1) as (Ha1 & Hp1 & Hl1 & Hu1 & _).
      repeat split; auto; try discriminate.
      intros a Ha. destruct (Hu1 a Ha) as [Hw|[-> Hh]]; [auto|].
      right. split; [left | exact Hh].
    + destruct (Hstep _ _ _ H1) as (Ha1 & Hp1 & Hl1 & Hu1 & _).
      repeat split; auto; try discriminate.
      intros a Ha. destruct (Hu1 a Ha) as [Hw|[-> Hh]]; [auto|].
      right. split; [left | exact Hh].
Qed.

Lemma for_clock (p : Pulsar) (l : list string) (w : World) :
  exists r,
    for_ l (clock p) w = (r, w, []) /\
    ((forall awg, awg ∈ l -> supported p awg) -> r = Ret tt).
Proof.
  induction l as [|awg l IH].
  - exists (Ret tt). split; [reflexivity | auto].
  - destruct IH as (r & Hrun & Hok). cbn [for_].
    unfold clock at 1, AWG_obj, bind.
    destruct (instruments p !! awg) as [cl|] eqn:Hcl.
    + destruct cl; cbn [ret cls raise].
      * rewrite Hrun. exists r. split; [reflexivity|].
        intros Hs. apply Hok. intros a Ha. apply Hs. right. exact Ha.
      * rewrite Hrun. exists r. split; [reflexivity|].
        intros Hs. apply Hok. intros a Ha. apply Hs. right. exact Ha.
      * eexists. split; [reflexivity|]. intros Hs.
        destruct (Hs awg (list_elem_of_here _ _)) as [H|H]; congruence.
    + eexists. split; [reflexivity|]. intros Hs.
      destruct (Hs awg (list_elem_of_here _ _)) as [H|H]; congruence.
Qed.

Lemma prequery_true (p : Pulsar) (w : World) :
  exists r w',
    AWGs_prequeried p true w = (r, w', []) /\
    awg_active w' = awg_active w /\ with_wfs w' = with_wfs w /\
    prequeried w' = returns r /\
    ((forall awg, awg ∈ awgs p -> supported p awg) -> r = Ret tt).
Proof.
  unfold AWGs_prequeried. unfold bind at 1. unfold set_prequeried at 1.
  destruct (for_clock p (elements (awgs p))
              {| awg_active := awg_active w; with_wfs := with_wfs w;
                 prequeried := false; now := now w |}) as (r & Hrun & Hok).
  unfold bind at 1. rewrite Hrun. destruct r as [[]|e|].
  - eexists _, _. split; [reflexivity|]. cbn. repeat split; auto.
  - eexists _, _. split; [reflexivity|]. cbn. repeat split; auto.
    intros Hs. assert (H : Raise e = Ret tt).
    { apply Hok. intros a Ha. apply Hs. apply elem_of_elements. exact Ha. }
    discriminate H.
  - eexists _, _. split; [reflexivity|]. cbn. repeat split; auto.
    intros Hs. assert (H : @OutOfFuel unit = Ret tt).
    { apply Hok. intros a Ha. apply Hs. apply elem_of_elements. exact Ha. }
    discriminate H.
Qed.

(** [program_awgs] forgets which AWGs had waveforms before and never
    changes an [active] flag.  For AWG5014s: whatever the outcome, only
    requested AWGs for which the sequence has waveforms are in the set of
    AWGs with waveforms afterwards; when it returns, all of them are, and
    the pulsar is no longer in the prequeried state. *)
Theorem program_awgs_waveform_set (c : PulsarCfg) (sequence : Sequence)
    (sel : option (list string)) (w w' : World) (r : outcome unit)
    (tr : list event) :
  (forall awg, awg ∈ requested (pulsar c) w sel ->
               instruments (pulsar c) !! awg = Some ClsAWG5014) ->
  program_awgs hdawg8_body c sequence sel w = (r, w', tr) ->
  awg_active w' = awg_active w /\
  (forall a, a ∈ with_wfs w' ->
     a ∈ requested (pulsar c) w sel /\ has_waveforms a sequence = true) /\
  (r = Ret tt ->
   prequeried w' = false /\
   forall a, a ∈ requested (pulsar c) w sel ->
     has_waveforms a sequence = true -> a ∈ with_wfs w').
Proof.
  intros Hcls Hrun. unfold program_awgs in Hrun.
  unfold bind at 1 in Hrun. unfold reset_with_wfs at 1 in Hrun.
  set (w0 := {| awg_active := awg_active w; with_wfs := ∅;
                prequeried := prequeried w; now := now w |}) in Hrun.
  assert (Hl : match sel with
               | Some l => ret l
               | None => bind (active_awgs (pulsar c))
                           (fun active => ret (elements active))
               end w0 = (Ret (requested (pulsar c) w sel), w0, [])).
  { destruct sel; reflexivity. }
  unfold bind at 1 in Hrun. rewrite Hl in Hrun.
  destruct (prequery_true (pulsar c) w0) as (rq & wq & Hq & Haq & Hwq & Hpq & _).
  unfold bind at 1 in Hrun. rewrite Hq in Hrun.
  destruct rq as [[]|e|].
  2:{ injection Hrun as <- <- <-. rewrite Haq. split; [reflexivity|].
      split; [|discriminate]. intros a Ha. rewrite Hwq in Ha.
      apply elem_of_empty in Ha. contradiction. }
  2:{ injection Hrun as <- <- <-. rewrite Haq. split; [reflexivity|].
      split; [|discriminate]. intros a Ha. rewrite Hwq in Ha.
      apply elem_of_empty in Ha. contradiction. }
  destruct (bind
              (for_ (requested (pulsar c) w sel)
                 (fun awg => bind (AWG_obj (pulsar c) awg)
                    (fun obj => Pulsar_program_awg hdawg8_body c obj sequence)))
              (fun _ => AWGs_prequeried (pulsar c) false) wq)
    as [[r1 w1] t1] eqn:Hloop.
  injection Hrun as <- <- <-.
  apply bind_inv in Hloop
    as [(u & w2 & t2 & t3 & H1 & H2 & ->) | [(e & H1 & ->) | (H1 & ->)]].
  - destruct (program_loop c sequence _ Hcls _ _ _ _ H1)
      as (Ha & Hp & _ & Hu & Hadd).
    injection H2 as <- <- <-. cbn [awg_active with_wfs prequeried].
    split; [rewrite Ha, Haq; reflexivity|]. split.
    + intros a Hin. destruct (Hu a Hin) as [Hw|H]; [|exact H].
      rewrite Hwq in Hw. apply elem_of_empty in Hw. contradiction.
    + intros _. split; [reflexivity|]. apply Hadd. destruct u. reflexivity.
  - destruct (program_loop c sequence _ Hcls _ _ _ _ H1)
      as (Ha & Hp & _ & Hu & _).
    split; [rewrite Ha, Haq; reflexivity|]. split; [|discriminate].
    intros a Hin. destruct (Hu a Hin) as [Hw|H]; [|exact H].
    rewrite Hwq in Hw. apply elem_of_empty in Hw. contradiction.
  - destruct (program_loop c sequence _ Hcls _ _ _ _ H1)
      as (Ha & Hp & _ & Hu & _).
    split; [rewrite Ha, Haq; reflexivity|]. split; [|discriminate].
    intros a Hin. destruct (Hu a Hin) as [Hw|H]; [|exact H].
    rewrite Hwq in Hw. apply elem_of_empty in Hw. contradiction.
Qed.

(** [program_awgs] has no clean-up: when the programming of a device
    raises, the pulsar stays in the prequeried state, in which clock
    frequencies are answered from the values cached at the beginning; only
    a run that returns leaves that state. *)
Theorem failed_program_awgs_stays_prequeried (c : PulsarCfg)
    (sequence : Sequence) (sel : option (list string)) (w w' : World)
    (r : outcome unit) (tr : list event) :
  (forall awg, awg ∈ awgs (pulsar c) -> supported (pulsar c) awg) ->
  (forall awg, awg ∈ requested (pulsar c) w sel ->
               instruments (pulsar c) !! awg = Some ClsAWG5014) ->
  program_awgs hdawg8_body c sequence sel w = (r, w', tr) ->
  prequeried w' = negb (returns r).
Proof.
  intros Hsup Hcls Hrun. unfold program_awgs in Hrun.
  unfold bind at 1 in Hrun. unfold reset_with_wfs at 1 in Hrun.
  set (w0 := {| awg_active := awg_active w; with_wfs := ∅;
                prequeried := prequeried w; now := now w |}) in Hrun.
  assert (Hl : match sel with
               | Some l => ret l
               | None => bind (active_awgs (pulsar c))
                           (fun active => ret (elements active))
               end w0 = (Ret (requested (pulsar c) w sel), w0, [])).
  { destruct sel; reflexivity. }
  unfold bind at 1 in Hrun. rewrite Hl in Hrun.
  destruct (prequery_true (pulsar c) w0) as (rq & wq & Hq & _ & _ & Hpq & Hok).
  rewrite (Hok Hsup) in Hq, Hpq. cbn [returns] in Hpq.
  unfold bind at 1 in Hrun. rewrite Hq in Hrun.
  destruct (bind
              (for_ (requested (pulsar c) w sel)
                 (fun awg => bind (AWG_obj (pulsar c) awg)
                    (fun obj => Pulsar_program_awg hdawg8_body c obj sequence)))
              (fun _ => AWGs_prequeried (pulsar c) false) wq)
    as [[r1 w1] t1] eqn:Hloop.
  injection Hrun as <- <- <-.
  apply bind_inv in Hloop
    as [(u & w2 & t2 & t3 & H1 & H2 & ->) | [(e & H1 & ->) | (H1 & ->)]].
  - injection H2 as <- <- <-. reflexivity.
  - destruct (program_loop c sequence _ Hcls _ _ _ _ H1) as (_ & Hp & _).
    cbn [returns negb]. congruence.
  - destruct (program_loop c sequence _ Hcls _ _ _ _ H1) as (_ & Hp & _).
    cbn [returns negb]. congruence.
Qed.

End ProgramAwgsState.

Lemma two_awgs_5014 (awg : string) :
  awg ∈ ["D1"; "D2"] -> instruments (pulsar two_awgs) !! awg = Some ClsAWG5014.
Proof.
  intros H. apply elem_of_cons in H as [->|H]; [reflexivity|].
  apply list_elem_of_singleton in H as ->. reflexivity.
Defined.

Lemma two_awgs_supported (awg : string) :
  awg ∈ awgs (pulsar two_awgs) -> @supported (pulsar two_awgs) awg.
Proof.
  intros H. left. apply two_awgs_5014.
  unfold two_awgs in H. cbn [pulsar awgs] in H.
  apply elem_of_union in H as [H|H]; apply elem_of_singleton in H as ->.
  - apply list_elem_of_here.
  - apply list_elem_of_further, list_elem_of_here.
Defined.

(** [seq_one] has waveforms for ["D1"] only; ["M"] was in the set before. *)
Lemma program_awgs_waveform_set_witness :
  let run := @program_awgs plain_driver (no_hdawg8 _) two_awgs seq_one
               (Some ["D1"; "D2"]) demo_world in
  ("D1" ∈ with_wfs (snd (fst run))) /\ ("M" ∉ with_wfs (snd (fst run))).
Proof.
  intros run.
  assert (Hr : fst (fst run) = Ret tt) by (vm_compute; reflexivity).
  destruct run as [[r w'] tr] eqn:Heq. cbn [fst snd] in *.
  destruct (@program_awgs_waveform_set plain_driver (no_hdawg8 _) two_awgs
              seq_one (Some ["D1"; "D2"]) demo_world w' r tr two_awgs_5014 Heq)
    as (_ & Hu & Hadd).
  split.
  - apply (proj2 (Hadd Hr)); [apply list_elem_of_here | reflexivity].
  - intros Ha. destruct (Hu _ Ha) as [Hin _].
    apply elem_of_cons in Hin as [Hin|Hin]; [discriminate Hin|].
    apply list_elem_of_singleton in Hin. discriminate Hin.
Defined.

(** The programming of ["D2"] fails on [seq_two]: the pulsar stays
    prequeried. *)
Lemma failed_program_awgs_stays_prequeried_witness :
  prequeried (snd (fst (@program_awgs plain_driver (no_hdawg8 _) two_awgs
                          seq_two (Some ["D1"; "D2"]) idle_world))) = true.
Proof.
  assert (Hr : returns (fst (fst (@program_awgs plain_driver (no_hdawg8 _)
                  two_awgs seq_two (Some ["D1"; "D2"]) idle_world))) = false)
    by (vm_compute; reflexivity).
  destruct (@program_awgs plain_driver (no_hdawg8 _) two_awgs seq_two
              (Some ["D1"; "D2"]) idle_world) as [[r w'] tr] eqn:Heq.
  cbn [fst snd] in *.
  rewrite (@failed_program_awgs_stays_prequeried plain_driver (no_hdawg8 _)
             two_awgs seq_two (Some ["D1"; "D2"]) idle_world w' r tr
             two_awgs_supported two_awgs_5014 Heq).
  rewrite Hr. reflexivity.
Defined.
